(** * http-handler: the admission gate, the option set and the fetch engine

    A shallow embedding of [handler.go] and of the option files of the
    package.  Sequential code is written as functions with explicit state
    passing; the goroutines started by [fetch] are written as a labelled
    transition system whose labels are scheduler choices. *)

From Stdlib Require Import ZArith Lia.
From stdpp Require Import base option list strings pretty.

Open Scope Z_scope.

(** ** Go values used by the package *)

(** A Go [error] is kept as the text of its message. *)
Definition error := string.

(** A call that returns [(value, err)] and whose value is only used when
    [err == nil]. *)
Inductive Result (A : Type) : Type :=
| Ok (a : A)
| Err (e : error).
Arguments Ok {A} a.
Arguments Err {A} e.

(** A call that may panic in the Go runtime. *)
Inductive Run (A : Type) : Type :=
| Returns (a : A)
| Panics (msg : string).
Arguments Returns {A} a.
Arguments Panics {A} msg.

(** An [io.Reader]: the bytes it delivers and how the stream ends
    ([None] is a clean end of file). *)
Record Reader : Type := mkReader {
  rd_data : string;
  rd_err : option error
}.

(** [ioutil.ReadAll]: what was read, and the error if there was one. *)
Definition ReadAll (r : Reader) : string * option error :=
  (rd_data r, rd_err r).

(** Go's [len] on a byte slice. *)
Definition len (content : string) : Z := Z.of_nat (String.length content).

(** [*http.Response], of which the package reads the body only. *)
Record Response : Type := mkResponse {
  Body : Reader
}.

(** [*http.Client], of which the package calls [Get] only.  The answer is
    a function of the URL: the network is a fixed environment during one
    batch. *)
Record Client : Type := mkClient {
  Get : string -> Result Response
}.

(** ** The admission gate (handler.go, lines 28-55) *)

Module Gate.

(** A buffered [chan struct{}]: the elements carry no data, so the buffer
    is its length. *)
Record chan : Type := mkChan {
  chan_cap : Z;
  chan_len : Z
}.

(** [make(chan struct{}, size)]: the runtime panics on a negative size;
    the element size is zero, so no allocation limit applies. *)
Definition make_chan (size : Z) : Run chan :=
  if size <? 0 then Panics "makechan: size out of range"
  else Returns {| chan_cap := size; chan_len := 0 |}.

(** [select { case c <- struct{}{}: ... default: ... }] with no receiver
    waiting: the send is taken exactly when the buffer has room. *)
Definition try_send (c : chan) : option chan :=
  if chan_len c <? chan_cap c
  then Some {| chan_cap := chan_cap c; chan_len := chan_len c + 1 |}
  else None.

(** [<-c] with no sender waiting: [None] is a receive that blocks. *)
Definition recv (c : chan) : option chan :=
  if 0 <? chan_len c
  then Some {| chan_cap := chan_cap c; chan_len := chan_len c - 1 |}
  else None.

Record semaphore : Type := mkSemaphore {
  ch : chan
}.

Definition newSemaphore (cap : Z) : Run semaphore :=
  match make_chan cap with
  | Returns c => Returns {| ch := c |}
  | Panics msg => Panics msg
  end.

Definition acquire (s : semaphore) : bool * semaphore :=
  match try_send (ch s) with
  | Some c => (true, {| ch := c |})
  | None => (false, s)
  end.

(** [None]: the caller blocks on the empty channel. *)
Definition release (s : semaphore) : option semaphore :=
  match recv (ch s) with
  | Some c => Some {| ch := c |}
  | None => None
  end.

Definition capacity (s : semaphore) : Z := chan_cap (ch s).
Definition in_use (s : semaphore) : Z := chan_len (ch s).

(** A caller's calls on one gate, in program order. *)
Inductive call : Type :=
| Acquire
| Release.

(** The results of the calls made: every [Acquire] reports its boolean.
    A [Release] that blocks ends the sequence, the caller never returns
    from it. *)
Fixpoint calls (cs : list call) (s : semaphore) : list bool * option semaphore :=
  match cs with
  | [] => ([], Some s)
  | Acquire :: cs' =>
      let '(ok, s') := acquire s in
      let '(oks, r) := calls cs' s' in
      (ok :: oks, r)
  | Release :: cs' =>
      match release s with
      | Some s' => calls cs' s'
      | None => ([], None)
      end
  end.

(** The gate of capacity [cap] with [n] slots taken. *)
Definition gate_at (cap n : Z) : semaphore :=
  {| ch := {| chan_cap := cap; chan_len := n |} |}.

(** How many acquires of a result list were granted, and how many calls
    of a call list are releases. *)
Definition granted (oks : list bool) : nat :=
  length (List.filter (fun ok => ok) oks).

Definition released (cs : list call) : nat :=
  length (List.filter (fun c => match c with Release => true | Acquire => false end) cs).

(** A gate of capacity [K] with its in-use count in range. *)
Definition gate_ok (K : Z) (s : semaphore) : Prop :=
  capacity s = K /\ 0 <= in_use s <= K.

End Gate.

(** ** Library calls of [ServeHTTP] *)

(** The line feed, Go's ["\n"]. *)
Definition LF : Ascii.ascii := Ascii.ascii_of_nat 10.

(** [strings.Split(s, sep)] for a one-byte separator: the pieces of [s]
    between the occurrences of [sep], [strings.Count(s, sep) + 1] of
    them, none dropped. *)
Fixpoint Split (s : string) (sep : Ascii.ascii) : list string :=
  match s with
  | EmptyString => [EmptyString]
  | String a s' =>
      if Ascii.eqb a sep then EmptyString :: Split s' sep
      else match Split s' sep with
           | piece :: pieces => String a piece :: pieces
           | [] => [String a EmptyString]
           end
  end.

(** [strings.Count(s, sep)] for a one-byte separator. *)
Fixpoint Count (s : string) (sep : Ascii.ascii) : nat :=
  match s with
  | EmptyString => O
  | String a s' => (if Ascii.eqb a sep then 1 else 0)%nat + Count s' sep
  end.

(** [strings.Join(elems, sep)]. *)
Fixpoint Join (elems : list string) (sep : string) : string :=
  match elems with
  | [] => EmptyString
  | [e] => e
  | e :: rest => e +:+ sep +:+ Join rest sep
  end.

(** [getRequestBodyBuffer(urls...)] of handler_test.go: a buffer over the
    URLs joined by line feeds; reading it to the end never fails. *)
Definition getRequestBodyBuffer (urls : list string) : Reader :=
  {| rd_data := Join urls (String LF EmptyString); rd_err := None |}.

(** [http.ResponseWriter]: the header map, the status line once it is
    written, and the chunks handed to [Write], oldest first. *)
Record ResponseWriter : Type := mkWriter {
  w_header : list (string * string);
  w_status : option Z;
  w_body : list string
}.

Definition newRecorder : ResponseWriter :=
  {| w_header := []; w_status := None; w_body := [] |}.

Definition StatusOK : Z := 200.
Definition StatusBadRequest : Z := 400.
Definition StatusMethodNotAllowed : Z := 405.
Definition StatusServiceUnavailable : Z := 503.

Definition StatusText (code : Z) : string :=
  if code =? 400 then "Bad Request"
  else if code =? 405 then "Method Not Allowed"
  else if code =? 503 then "Service Unavailable"
  else if code =? 200 then "OK"
  else "".

Definition header_del (k : string) (hd : list (string * string)) :=
  List.filter (fun kv => negb (String.eqb (fst kv) k)) hd.

Definition header_set (k v : string) (hd : list (string * string)) :=
  header_del k hd ++ [(k, v)].

Definition header_add (k v : string) (hd : list (string * string)) :=
  hd ++ [(k, v)].

(** [w.WriteHeader(code)]: the first status written stays. *)
Definition WriteHeader (code : Z) (w : ResponseWriter) : ResponseWriter :=
  match w_status w with
  | Some _ => w
  | None => {| w_header := w_header w; w_status := Some code; w_body := w_body w |}
  end.

(** [w.Write(chunk)]: a write before any status sends [200 OK] first. *)
Definition Write (chunk : string) (w : ResponseWriter) : ResponseWriter :=
  let w' := WriteHeader StatusOK w in
  {| w_header := w_header w'; w_status := w_status w'; w_body := w_body w' ++ [chunk] |}.

(** [fmt.Fprintln(w, text)]. *)
Definition Fprintln (text : string) (w : ResponseWriter) : ResponseWriter :=
  Write (text +:+ String LF EmptyString) w.

(** [http.Error(w, text, code)]. *)
Definition Error (w : ResponseWriter) (text : string) (code : Z) : ResponseWriter :=
  let hd := header_set "X-Content-Type-Options" "nosniff"
              (header_set "Content-Type" "text/plain; charset=utf-8"
                 (header_del "Content-Length" (w_header w))) in
  Fprintln text
    (WriteHeader code {| w_header := hd; w_status := w_status w; w_body := w_body w |}).

(** The status the peer sees: a handler that returns without writing
    sends [200 OK]. *)
Definition status (w : ResponseWriter) : Z := default StatusOK (w_status w).

(** The body as the peer reads it: the chunks written, in order. *)
Definition body_text (w : ResponseWriter) : string :=
  fold_right String.append EmptyString (w_body w).

(** [*http.Request], of which the handler reads the method and the body. *)
Record Request : Type := mkRequest {
  Method : string;
  req_Body : Reader
}.

Section Package.

(** [*log.Logger] is kept abstract: the package only passes it around and
    calls [Println] on it.  [defaultLogger] and [defaultClient] are the
    package variables initialised from [log.Default()] and
    [http.DefaultClient]. *)
Context {Logger : Type}.
Variable defaultLogger : Logger.
Variable defaultClient : Client.

Import Gate.

(** ** The handler and its options (handler.go lines 23-81, options) *)

Definition defaultMaxIncomingRequests : Z := 100.

(** Pointer fields are [option]s, [None] being [nil].  [maxRequests] is
    the field that [limitRequestsOption.apply] assigns; the struct
    declaration in handler.go lists only the first three fields, and no
    function of the package reads the fourth. *)
Record Handler : Type := mkHandler {
  sem : semaphore;
  logger : option Logger;
  client : option Client;
  maxRequests : Z
}.

(** The three implementations of the [Option] interface.  An option list
    holds options that are not nil: on a nil option [opt.apply(h)] panics
    in [NewHandler], which is outside this model.  The payload of an
    option may be nil. *)
Inductive Option : Type :=
| clientOption (c : option Client)
| loggerOption (l : option Logger)
| limitRequestsOption (limit : Z).

Definition WithClient (c : option Client) : Option := clientOption c.
Definition WithLogger (l : option Logger) : Option := loggerOption l.
Definition LimitRequests (limit : Z) : Option := limitRequestsOption limit.

Definition apply (opt : Option) (h : Handler) : Handler :=
  match opt with
  | clientOption c =>
      {| sem := sem h; logger := logger h; client := c; maxRequests := maxRequests h |}
  | loggerOption l =>
      {| sem := sem h; logger := l; client := client h; maxRequests := maxRequests h |}
  | limitRequestsOption limit =>
      {| sem := sem h; logger := logger h; client := client h; maxRequests := limit |}
  end.

(** [for _, opt := range opts { opt.apply(h) }] *)
Definition apply_all (opts : list Option) (h : Handler) : Handler :=
  fold_left (fun h opt => apply opt h) opts h.

Definition NewHandler (opts : list Option) : Run Handler :=
  match newSemaphore defaultMaxIncomingRequests with
  | Panics msg => Panics msg
  | Returns s =>
      let h := {| sem := s; logger := None; client := None; maxRequests := 0 |} in
      let h := apply_all opts h in
      let h := match client h with
               | None => {| sem := sem h; logger := logger h;
                            client := Some defaultClient; maxRequests := maxRequests h |}
               | Some _ => h
               end in
      let h := match logger h with
               | None => {| sem := sem h; logger := Some defaultLogger;
                            client := client h; maxRequests := maxRequests h |}
               | Some _ => h
               end in
      Returns h
  end.

(** ** The fetch engine (handler.go lines 113-152)

    [fetch] starts one goroutine that starts one goroutine per URL.  The
    program counters below are the points where a goroutine can be
    preempted or can block; the statements between two such points touch
    nothing another goroutine can see and are taken in one step. *)

(** One task, [go func(url string) { ... }(url)]. *)
Inductive TaskPC : Type :=
| TGet                      (* before resp, err := h.client.Get(url) *)
| TRead (resp : Response)   (* before content, err := ioutil.ReadAll(resp.Body) *)
| TSend (n : Z)             (* at ch <- len(content) *)
| TDone.                    (* returned, the deferred wg.Done() has run *)

Record Task : Type := mkTask {
  t_url : string;
  t_pc : TaskPC
}.

(** The outer goroutine. *)
Inductive SpawnerPC : Type :=
| SLoop (rest : list string)  (* in the range loop; at wg.Wait() once rest is empty *)
| SClose                      (* wg.Wait() has returned, before close(ch) *)
| SExit.

(** The caller, which holds the receiving end of [ch]. *)
Inductive ReaderPC : Type :=
| RRange   (* in for size := range ch, ready to receive *)
| RExit    (* the range loop has ended on the closed channel *)
| RGone.   (* has stopped receiving without waiting for the close *)

Record Engine : Type := mkEngine {
  spawner : SpawnerPC;
  tasks : list Task;              (* the goroutines started, in start order *)
  wg : Z;                         (* the counter of the sync.WaitGroup *)
  closed : bool;                  (* whether ch is closed *)
  logged : list (Logger * error); (* the Println calls made, with their logger *)
  reader : ReaderPC;
  received : list Z               (* the values taken from ch, in arrival order *)
}.

(** [h.fetch(urls)] at the moment it returns [ch] to a caller that ranges
    over it: nothing has run yet. *)
Definition fetch (urls : list string) : Engine :=
  {| spawner := SLoop urls; tasks := []; wg := 0; closed := false;
     logged := []; reader := RRange; received := [] |}.

(** A scheduler choice. *)
Inductive Action : Type :=
| ASpawner
| ATask (i : nat)
| AReader
| AAbandon.

Definition set_spawner (p : SpawnerPC) (s : Engine) : Engine :=
  {| spawner := p; tasks := tasks s; wg := wg s; closed := closed s;
     logged := logged s; reader := reader s; received := received s |}.

(** [wg.Add(1); go func(url string) {...}(url)] *)
Definition spawn (url : string) (rest : list string) (s : Engine) : Engine :=
  {| spawner := SLoop rest; tasks := tasks s ++ [{| t_url := url; t_pc := TGet |}];
     wg := wg s + 1; closed := closed s;
     logged := logged s; reader := reader s; received := received s |}.

Definition set_task (i : nat) (t : Task) (s : Engine) : Engine :=
  {| spawner := spawner s; tasks := <[i:=t]> (tasks s); wg := wg s; closed := closed s;
     logged := logged s; reader := reader s; received := received s |}.

(** [h.logger.Println(err); return], then the deferred [wg.Done()].
    A nil logger is a nil dereference: no step. *)
Definition fail_task (h : Handler) (i : nat) (url : string) (e : error) (s : Engine)
  : option Engine :=
  match logger h with
  | None => None
  | Some l =>
      Some {| spawner := spawner s;
              tasks := <[i:={| t_url := url; t_pc := TDone |}]> (tasks s);
              wg := wg s - 1; closed := closed s;
              logged := logged s ++ [(l, e)]; reader := reader s;
              received := received s |}
  end.

(** [ch <- n] meeting the caller's receive, then the deferred [wg.Done()]. *)
Definition emit_task (i : nat) (url : string) (n : Z) (s : Engine) : Engine :=
  {| spawner := spawner s;
     tasks := <[i:={| t_url := url; t_pc := TDone |}]> (tasks s);
     wg := wg s - 1; closed := closed s;
     logged := logged s; reader := reader s;
     received := received s ++ [n] |}.

Definition step_spawner (s : Engine) : option Engine :=
  match spawner s with
  | SLoop (url :: rest) => Some (spawn url rest s)
  | SLoop [] => if wg s =? 0 then Some (set_spawner SClose s) else None
  | SClose =>
      Some {| spawner := SExit; tasks := tasks s; wg := wg s; closed := true;
              logged := logged s; reader := reader s; received := received s |}
  | SExit => None
  end.

(** One step of task [i].  The send needs the caller at its receive, the
    channel being unbuffered; on a closed channel it would panic, which
    no run reaches. *)
Definition step_task (h : Handler) (i : nat) (s : Engine) : option Engine :=
  match tasks s !! i with
  | None => None
  | Some t =>
      match t_pc t with
      | TGet =>
          match client h with
          | None => None
          | Some c =>
              match Get c (t_url t) with
              | Err e => fail_task h i (t_url t) e s
              | Ok resp => Some (set_task i {| t_url := t_url t; t_pc := TRead resp |} s)
              end
          end
      | TRead resp =>
          match ReadAll (Body resp) with
          | (_, Some e) => fail_task h i (t_url t) e s
          | (content, None) =>
              Some (set_task i {| t_url := t_url t; t_pc := TSend (len content) |} s)
          end
      | TSend n =>
          match reader s, closed s with
          | RRange, false => Some (emit_task i (t_url t) n s)
          | _, _ => None
          end
      | TDone => None
      end
  end.

Definition set_reader (r : ReaderPC) (s : Engine) : Engine :=
  {| spawner := spawner s; tasks := tasks s; wg := wg s; closed := closed s;
     logged := logged s; reader := r; received := received s |}.

(** The receive of the range loop on a closed channel ends the loop; the
    receives that take a value are the partner of [emit_task]. *)
Definition step_reader (s : Engine) : option Engine :=
  match reader s, closed s with
  | RRange, true => Some (set_reader RExit s)
  | _, _ => None
  end.

(** A caller other than a full range loop may drop the channel. *)
Definition step_abandon (s : Engine) : option Engine :=
  match reader s with
  | RRange => Some (set_reader RGone s)
  | _ => None
  end.

(** One scheduler choice; [None] when the chosen goroutine is blocked or
    has returned. *)
Definition step (h : Handler) (a : Action) (s : Engine) : option Engine :=
  match a with
  | ASpawner => step_spawner s
  | ATask i => step_task h i s
  | AReader => step_reader s
  | AAbandon => step_abandon s
  end.

Fixpoint run (h : Handler) (sched : list Action) (s : Engine) : option Engine :=
  match sched with
  | [] => Some s
  | a :: sched' =>
      match step h a s with
      | Some s' => run h sched' s'
      | None => None
      end
  end.

Definition task_done (t : Task) : bool :=
  match t_pc t with TDone => true | _ => false end.

(** Every goroutine of the engine has returned and the caller's loop has
    ended. *)
Definition finished (s : Engine) : bool :=
  match spawner s, reader s with
  | SExit, RExit => forallb task_done (tasks s)
  | _, _ => false
  end.

(** The caller never drops the channel. *)
Definition drains (sched : list Action) : bool :=
  forallb (fun a => match a with AAbandon => false | _ => true end) sched.

(** ** The inbound operation (handler.go lines 83-111) *)

(** The calls a request makes on the gate, kept beside the state to count
    them. *)
Inductive GateCall : Type :=
| CallAcquire (ok : bool)
| CallRelease.

(** What one call of [ServeHTTP] leaves behind: the handler with its
    gate, the response, the gate calls made, and the engine as it stands
    when the call returns if [h.fetch] was called at all. *)
Record Outcome : Type := mkOutcome {
  o_handler : Handler;
  o_writer : ResponseWriter;
  o_gate : list GateCall;
  o_engine : option Engine
}.

Definition set_sem (s : semaphore) (h : Handler) : Handler :=
  {| sem := s; logger := logger h; client := client h; maxRequests := maxRequests h |}.

Definition loop_ended (e : Engine) : bool :=
  match reader e with RExit => true | _ => false end.

(** [for size := range h.fetch(urls) { fmt.Fprintln(writer, size) }] *)
Definition write_sizes (sizes : list Z) (writer : ResponseWriter) : ResponseWriter :=
  fold_left (fun w size => Fprintln (pretty size) w) sizes writer.

(** [writer.Header().Add("Content-Type", "text/plain")] *)
Definition with_content_type (writer : ResponseWriter) : ResponseWriter :=
  {| w_header := header_add "Content-Type" "text/plain" (w_header writer);
     w_status := w_status writer; w_body := w_body writer |}.

(** Lines 97-110, the region guarded by the deferred release.  [sched] is
    the interleaving the scheduler picks for the goroutines of [fetch] and
    the range loop; the region returns when the loop has ended, and
    [None] stands for a [sched] that is not such an interleaving. *)
Definition guarded (h : Handler) (writer : ResponseWriter) (request : Request)
    (sched : list Action) : option (ResponseWriter * option Engine) :=
  match ReadAll (req_Body request) with
  | (_, Some _) =>
      Some (Error writer (StatusText StatusBadRequest) StatusBadRequest, None)
  | (data, None) =>
      let urls := Split data LF in
      let writer := with_content_type writer in
      match run h sched (fetch urls) with
      | Some e =>
          if loop_ended e then Some (write_sizes (received e) writer, Some e) else None
      | None => None
      end
  end.

Definition ServeHTTP (h : Handler) (writer : ResponseWriter) (request : Request)
    (sched : list Action) : option Outcome :=
  if negb (String.eqb (Method request) "POST") then
    Some {| o_handler := h;
            o_writer := Error writer (StatusText StatusMethodNotAllowed)
                          StatusMethodNotAllowed;
            o_gate := []; o_engine := None |}
  else
    let '(ok, s1) := acquire (sem h) in
    if negb ok then
      Some {| o_handler := set_sem s1 h;
              o_writer := Error writer (StatusText StatusServiceUnavailable)
                            StatusServiceUnavailable;
              o_gate := [CallAcquire false]; o_engine := None |}
    else
      match guarded (set_sem s1 h) writer request sched with
      | None => None
      | Some (writer', eng) =>
          (* defer h.sem.release() *)
          match release s1 with
          | None => None
          | Some s2 =>
              Some {| o_handler := set_sem s2 h; o_writer := writer';
                      o_gate := [CallAcquire true; CallRelease]; o_engine := eng |}
          end
      end.

(** ** What the claims speak of *)

(** What the body of one task computes for a URL. *)
Definition fetch_size (c : Client) (url : string) : Result Z :=
  match Get c url with
  | Err e => Err e
  | Ok resp =>
      match ReadAll (Body resp) with
      | (_, Some e) => Err e
      | (content, None) => Ok (len content)
      end
  end.

Definition size_of (c : Client) (url : string) : list Z :=
  match fetch_size c url with Ok n => [n] | Err _ => [] end.

Definition error_of (c : Client) (url : string) : list error :=
  match fetch_size c url with Ok _ => [] | Err e => [e] end.

(** The sizes of the URLs that can be fetched, and the errors of the
    others, in input order. *)
Definition successes (c : Client) (urls : list string) : list Z :=
  flat_map (size_of c) urls.

Definition failures (c : Client) (urls : list string) : list error :=
  flat_map (error_of c) urls.


(** No goroutine of the engine and no receive of the caller can be taken. *)
Definition quiescent (h : Handler) (s : Engine) : Prop :=
  forall a, a <> AAbandon -> step h a s = None.

Definition blocked_at_send (t : Task) : bool :=
  match t_pc t with TSend _ => true | _ => false end.

(** The payload of the last option of each kind in an option list, [None]
    when the list has no option of that kind. *)
Fixpoint client_set (opts : list Option) : option (option Client) :=
  match opts with
  | [] => None
  | opt :: opts' =>
      match client_set opts' with
      | Some c => Some c
      | None => match opt with clientOption c => Some c | _ => None end
      end
  end.

Fixpoint logger_set (opts : list Option) : option (option Logger) :=
  match opts with
  | [] => None
  | opt :: opts' =>
      match logger_set opts' with
      | Some l => Some l
      | None => match opt with loggerOption l => Some l | _ => None end
      end
  end.

Definition sets_client (opts : list Option) : bool :=
  match client_set opts with Some _ => true | None => false end.

Definition sets_logger (opts : list Option) : bool :=
  match logger_set opts with Some _ => true | None => false end.

(** What a task has put on the channel, what it has logged, and whether
    it still counts in the wait group: a task contributes once it is done. *)
Definition emitted_by (c : Client) (t : Task) : list Z :=
  if task_done t then size_of c (t_url t) else [].

Definition logged_by (c : Client) (l : Logger) (t : Task) : list (Logger * error) :=
  if task_done t then (fun e => (l, e)) <$> error_of c (t_url t) else [].

Definition live (t : Task) : nat := if task_done t then 0%nat else 1%nat.

(** The program counter of a task agrees with what the client answers
    for its URL. *)
Definition task_ok (c : Client) (t : Task) : Prop :=
  match t_pc t with
  | TGet | TDone => True
  | TRead resp => Get c (t_url t) = Ok resp
  | TSend n => fetch_size c (t_url t) = Ok n
  end.

Definition rest_of (p : SpawnerPC) : list string :=
  match p with SLoop rest => rest | _ => [] end.

(** The invariant of the engine started on [urls]. *)
Record Inv (c : Client) (l : Logger) (urls : list string) (s : Engine) : Prop := {
  inv_urls : (t_url <$> tasks s) ++ rest_of (spawner s) = urls;
  inv_tasks : Forall (task_ok c) (tasks s);
  inv_wg : wg s = Z.of_nat (sum_list_with live (tasks s));
  inv_received : received s ≡ₚ flat_map (emitted_by c) (tasks s);
  inv_logged : logged s ≡ₚ flat_map (logged_by c l) (tasks s);
  inv_spawner :
    match spawner s with
    | SLoop _ => closed s = false
    | SClose => closed s = false /\ wg s = 0
    | SExit => closed s = true /\ wg s = 0
    end;
  inv_reader : reader s = RExit -> closed s = true
}.

(** A bound on the number of steps still possible. *)
Definition task_fuel (t : Task) : nat :=
  match t_pc t with
  | TGet => 3 | TRead _ => 2 | TSend _ => 1 | TDone => 0
  end%nat.

Definition spawner_fuel (p : SpawnerPC) : nat :=
  match p with
  | SLoop rest => 4 * length rest + 2 | SClose => 1 | SExit => 0
  end%nat.

Definition reader_fuel (r : ReaderPC) : nat :=
  match r with RRange => 1 | _ => 0 end%nat.

Definition fuel (s : Engine) : nat :=
  (spawner_fuel (spawner s) + sum_list_with task_fuel (tasks s)
   + reader_fuel (reader s))%nat.

(** The number of [release] calls among the gate calls of a request. *)
Definition releases (calls : list GateCall) : nat :=
  length (List.filter (fun g => match g with CallRelease => true | _ => false end) calls).

(** The line [Fprintln] writes for a size. *)
Definition size_line (n : Z) : string := pretty n +:+ String LF EmptyString.

(** A task that has returned, or waits at its send with the size it
    fetched. *)
Definition settled (c : Client) (t : Task) : Prop :=
  task_done t = true \/ exists n, t_pc t = TSend n /\ fetch_size c (t_url t) = Ok n.

(** Lines 84-95 of [ServeHTTP], the part a request runs before the guarded
    region: the method check and the acquire. *)
Inductive Admission : Type :=
| NotAllowed
| Unavailable
| Entered.

Definition enter (h : Handler) (request : Request) : Admission * Handler :=
  if negb (String.eqb (Method request) "POST") then (NotAllowed, h)
  else
    let '(ok, s1) := acquire (sem h) in
    if negb ok then (Unavailable, set_sem s1 h) else (Entered, set_sem s1 h).

(** Requests that enter one after the other while none of them returns:
    the admitted ones are still in their guarded regions. *)
Fixpoint arrive (h : Handler) (requests : list Request) : list Admission * Handler :=
  match requests with
  | [] => ([], h)
  | request :: requests' =>
      let '(a, h') := enter h request in
      let '(rest, h'') := arrive h' requests' in
      (a :: rest, h'')
  end.

(** The value a task holds at its send. *)
Definition pending (t : Task) : list Z :=
  match t_pc t with TSend n => [n] | _ => [] end.

(** The task for [url] once it has returned. *)
Definition done_task (url : string) : Task := {| t_url := url; t_pc := TDone |}.

(** The gate calls [ServeHTTP] makes after each way of entering. *)
Definition gate_calls (a : Admission) : list GateCall :=
  match a with
  | NotAllowed => []
  | Unavailable => [CallAcquire false]
  | Entered => [CallAcquire true; CallRelease]
  end.

(** Which field an option assigns. *)
Definition field_of (opt : Option) : nat :=
  match opt with
  | clientOption _ => 0
  | loggerOption _ => 1
  | limitRequestsOption _ => 2
  end%nat.

End Package.

(** ** Sample data

    A client that knows three URLs, two handlers that differ in their
    gate, and three requests.  Loggers are named by strings here. *)

Definition sample_client : Client :=
  {| Get := fun url =>
       if String.eqb url "http://a" then
         Ok {| Body := {| rd_data := "hello"; rd_err := None |} |}
       else if String.eqb url "http://b" then
         Ok {| Body := {| rd_data := "hel"; rd_err := Some "unexpected EOF" |} |}
       else Err "unsupported protocol scheme" |}.

Definition offline_client : Client :=
  {| Get := fun _ => Err "connection refused" |}.

Definition sample_gate (cap n : Z) : Gate.semaphore :=
  {| Gate.ch := {| Gate.chan_cap := cap; Gate.chan_len := n |} |}.

Definition sample_handler : @Handler string :=
  {| sem := sample_gate 2 0; logger := Some "audit";
     client := Some sample_client; maxRequests := 0 |}.

Definition full_handler : @Handler string :=
  {| sem := sample_gate 1 1; logger := Some "audit";
     client := Some sample_client; maxRequests := 0 |}.

Definition sample_post : Request :=
  {| Method := "POST";
     req_Body := {| rd_data := "http://a" +:+ String LF "http://c"; rd_err := None |} |}.

Definition empty_post : Request :=
  {| Method := "POST"; req_Body := {| rd_data := ""; rd_err := None |} |}.

Definition unreadable_post : Request :=
  {| Method := "POST";
     req_Body := {| rd_data := "http://a"; rd_err := Some "connection reset" |} |}.

(** An interleaving for [empty_post]. *)
Definition empty_sched : list Action :=
  [ASpawner; ATask 0; ASpawner; ASpawner; AReader].

(** The caller goes at once; the only task fetches and reaches its send. *)
Definition abandon_sched : list Action :=
  [AAbandon; ASpawner; ATask 0; ATask 0].

(** One interleaving for [sample_post]: both tasks are started, the
    second fails, the first is received, the channel is closed and the
    range loop ends. *)
Definition sample_sched : list Action :=
  [ASpawner; ASpawner; ATask 1; ATask 0; ATask 0; ATask 0; ASpawner; ASpawner; AReader].

(** A second interleaving for [sample_post]: the first task is fetched
    before the second is started. *)
Definition other_sched : list Action :=
  [ASpawner; ATask 0; ASpawner; ATask 0; ATask 0; ATask 1; ASpawner; ASpawner; AReader].

Definition sample_get : Request :=
  {| Method := "GET"; req_Body := {| rd_data := "http://a"; rd_err := None |} |}.

(** A client that answers every URL with the URL itself as the body. *)
Definition echo_client : Client :=
  {| Get := fun url => Ok {| Body := {| rd_data := url; rd_err := None |} |} |}.

Definition echo_handler : @Handler string :=
  {| sem := sample_gate 2 0; logger := Some "audit";
     client := Some echo_client; maxRequests := 0 |}.

(** * Properties *)

Section PackageFacts.

Context {Logger : Type}.
Variable defaultLogger : Logger.
Variable defaultClient : Client.

Import Gate.

(** In this section the package types are the ones at [Logger]. *)
Local Abbreviation Handler := (@Handler Logger).
Local Abbreviation Option := (@Option Logger).
Local Abbreviation Engine := (@Engine Logger).
Local Abbreviation Outcome := (@Outcome Logger).
Local Abbreviation fetch := (@fetch Logger).


(** ** The gate *)

Lemma acquire_free (s : semaphore) :
  in_use s < capacity s ->
  exists s', acquire s = (true, s') /\ in_use s' = in_use s + 1
             /\ capacity s' = capacity s.
Proof.
  unfold in_use, capacity, acquire, try_send. intros Hlt.
  apply Z.ltb_lt in Hlt. rewrite Hlt. eexists. split; [reflexivity|]. simpl. lia.
Qed.

Lemma acquire_full (s : semaphore) :
  capacity s <= in_use s -> acquire s = (false, s).
Proof.
  unfold in_use, capacity, acquire, try_send. intros Hge.
  apply Z.ltb_ge in Hge. now rewrite Hge.
Qed.

Lemma release_inv (s s' : semaphore) :
  release s = Some s' ->
  0 < in_use s /\ in_use s' = in_use s - 1 /\ capacity s' = capacity s.
Proof.
  unfold in_use, capacity, release, recv.
  destruct (0 <? chan_len (ch s)) eqn:Hlt; [|discriminate].
  intros [= <-]. apply Z.ltb_lt in Hlt. simpl. lia.
Qed.

Lemma release_empty (s : semaphore) : in_use s <= 0 -> release s = None.
Proof.
  unfold in_use, release, recv. intros Hle.
  apply Z.ltb_ge in Hle. now rewrite Hle.
Qed.

Lemma newSemaphore_ok (K : Z) (s : semaphore) :
  newSemaphore K = Returns s -> gate_ok K s /\ in_use s = 0.
Proof.
  unfold newSemaphore, make_chan, gate_ok, capacity, in_use.
  destruct (K <? 0) eqn:Hneg; [discriminate|].
  intros [= <-]. apply Z.ltb_ge in Hneg. simpl. lia.
Qed.

Lemma acquire_ok (K : Z) (s : semaphore) :
  gate_ok K s -> gate_ok K (snd (acquire s)).
Proof.
  intros [Hc Hb]. destruct (Z.lt_ge_cases (in_use s) (capacity s)) as [Hlt|Hge].
  - destruct (acquire_free s Hlt) as (s' & -> & Hl & Hc'). simpl.
    unfold gate_ok. lia.
  - rewrite (acquire_full s Hge). simpl. now split.
Qed.

Lemma release_ok (K : Z) (s s' : semaphore) :
  gate_ok K s -> release s = Some s' -> gate_ok K s'.
Proof.
  intros [Hc Hb] Hr. apply release_inv in Hr. unfold gate_ok. lia.
Qed.

Lemma calls_ok (K : Z) (cs : list call) :
  forall s s', gate_ok K s -> snd (calls cs s) = Some s' -> gate_ok K s'.
Proof.
  induction cs as [|c cs IH]; intros s s' Hok; simpl.
  - now intros [= <-].
  - destruct c.
    + pose proof (acquire_ok K s Hok) as Hok'.
      destruct (acquire s) as [ok s1]. simpl in Hok'.
      specialize (IH s1 s' Hok').
      destruct (calls cs s1) as [oks r]. simpl in *. exact IH.
    + destruct (release s) as [s1|] eqn:Hr; [|discriminate].
      apply IH. eapply release_ok; eauto.
Qed.

(** A run of acquires on a gate in range: the first [K - in-use] say
    [true], all later ones say [false]. *)
Lemma acquires_in_a_row (K : Z) (m : nat) :
  forall s, gate_ok K s ->
    fst (calls (replicate m Acquire) s) =
    replicate (m `min` Z.to_nat (K - in_use s)) true
    ++ replicate (m - Z.to_nat (K - in_use s)) false.
Proof.
  induction m as [|m IH]; intros s Hok; [reflexivity|].
  cbn [replicate calls]. pose proof (acquire_ok K s Hok) as Hok'.
  destruct Hok as [Hc Hb].
  destruct (Z.lt_ge_cases (in_use s) (capacity s)) as [Hlt|Hge].
  - destruct (acquire_free s Hlt) as (s' & Ha & Hl & _).
    rewrite Ha in Hok' |- *. simpl in Hok'. specialize (IH s' Hok').
    destruct (calls (replicate m Acquire) s') as [oks r]. simpl in IH |- *.
    rewrite IH.
    replace (Z.to_nat (K - in_use s)) with (S (Z.to_nat (K - in_use s'))) by lia.
    reflexivity.
  - rewrite (acquire_full s Hge). specialize (IH s (conj Hc Hb)).
    destruct (calls (replicate m Acquire) s) as [oks r]. simpl in IH |- *.
    rewrite IH. replace (Z.to_nat (K - in_use s)) with 0%nat by lia.
    rewrite !Nat.min_0_r, !Nat.sub_0_r. reflexivity.
Qed.

Lemma release_held (s : semaphore) :
  0 < in_use s ->
  exists s', release s = Some s' /\ in_use s' = in_use s - 1
             /\ capacity s' = capacity s.
Proof.
  unfold in_use, capacity, release, recv. intros Hlt.
  apply Z.ltb_lt in Hlt. rewrite Hlt. eexists. split; [reflexivity|]. simpl. lia.
Qed.

(** C2.  A gate made with capacity [K >= 0], after any sequence of
    acquire and release calls: in-use lies between [0] and [K];
    [acquire] always returns (it is a function), takes a slot and says
    [true] when in-use is below [K], says [false] and changes nothing
    when in-use is [K]; [release] returns and gives one slot back
    whenever a slot is taken, and blocks when none is; on the full gate
    of a capacity above zero a release returns, the next acquire says
    [true] and the one after it says [false]; and in general, after a
    release returns, of any run of acquires exactly the first
    [K - in-use + 1] say [true], one more than before it. *)
Theorem gate_capacity_invariant (K : Z) (s0 : semaphore) :
  0 <= K ->
  newSemaphore K = Returns s0 ->
  (forall cs s, snd (calls cs s0) = Some s ->
     capacity s = K /\ 0 <= in_use s <= K /\
     (in_use s < K ->
        exists s', acquire s = (true, s') /\ in_use s' = in_use s + 1) /\
     (in_use s = K -> acquire s = (false, s)) /\
     (in_use s = K -> forall s1, release s = Some s1 ->
        exists s2, acquire s1 = (true, s2) /\ acquire s2 = (false, s2)) /\
     (forall s1 m, release s = Some s1 ->
        fst (calls (replicate m Acquire) s1) =
        replicate (m `min` Z.to_nat (K - in_use s + 1)) true
        ++ replicate (m - Z.to_nat (K - in_use s + 1)) false) /\
     (0 < in_use s ->
        exists s1, release s = Some s1 /\ in_use s1 = in_use s - 1
                   /\ capacity s1 = K) /\
     (in_use s = 0 -> release s = None) /\
     (in_use s = K -> 0 < K ->
        exists s1 s2, release s = Some s1 /\ acquire s1 = (true, s2)
                      /\ acquire s2 = (false, s2))).
Proof.
  intros HK Hnew cs s Hcs.
  destruct (newSemaphore_ok K s0 Hnew) as [Hok0 _].
  pose proof (calls_ok K cs s0 s Hok0 Hcs) as Hok.
  destruct Hok as [Hc Hb].
  split; [exact Hc|]. split; [exact Hb|].
  split; [|split; [|split; [|split; [|split; [|split]]]]].
  - intros Hlt. destruct (acquire_free s) as (s' & Ha & Hl & _); [lia|]. eauto.
  - intros Hfull. apply acquire_full. lia.
  - intros Hfull s1 Hr. apply release_inv in Hr. destruct Hr as (Hpos & Hl1 & Hc1).
    destruct (acquire_free s1) as (s2 & Ha & Hl2 & Hc2); [lia|].
    exists s2. split; [exact Ha|]. apply acquire_full. lia.
  - intros s1 m Hr.
    pose proof (release_ok K s s1 (conj Hc Hb) Hr) as Hok1.
    apply release_inv in Hr. destruct Hr as (_ & Hl1 & _).
    rewrite (acquires_in_a_row K m s1 Hok1).
    now replace (K - in_use s1) with (K - in_use s + 1) by lia.
  - intros Hpos. destruct (release_held s Hpos) as (s1 & Hr & Hl1 & Hc1).
    exists s1. repeat split; [exact Hr|exact Hl1|lia].
  - intros Hzero. apply release_empty. lia.
  - intros Hfull HKpos. destruct (release_held s) as (s1 & Hr & Hl1 & Hc1); [lia|].
    destruct (acquire_free s1) as (s2 & Ha & Hl2 & Hc2); [lia|].
    exists s1, s2. split; [exact Hr|]. split; [exact Ha|].
    apply acquire_full. lia.
Qed.

Lemma calls_zero_capacity (cs : list call) :
  forall s, capacity s = 0 -> in_use s = 0 ->
    Forall (fun ok => ok = false) (fst (calls cs s)).
Proof.
  induction cs as [|c cs IH]; intros s Hc Hl; simpl.
  - constructor.
  - destruct c.
    + rewrite acquire_full by lia.
      specialize (IH s Hc Hl). destruct (calls cs s) as [oks r]. simpl in *.
      constructor; [reflexivity|exact IH].
    + rewrite release_empty by lia. constructor.
Qed.

(** C7.  [newSemaphore 0] returns a gate on which every acquire of every
    call sequence says [false], [n] acquires in a row all return, and a
    negative capacity makes [newSemaphore] panic. *)
Theorem gate_capacity_zero :
  (exists s0, newSemaphore 0 = Returns s0 /\
     (forall cs, Forall (fun ok => ok = false) (fst (calls cs s0))) /\
     (forall n, calls (replicate n Acquire) s0 = (replicate n false, Some s0))) /\
  (forall K, K < 0 -> exists msg, newSemaphore K = Panics msg).
Proof.
  split.
  - pose (s0 := {| ch := {| chan_cap := 0; chan_len := 0 |} |}).
    exists s0. split; [reflexivity|]. split.
    + intros cs. now apply calls_zero_capacity.
    + induction n as [|n IH]; [reflexivity|].
      cbn [replicate calls].
      rewrite (acquire_full s0) by (unfold capacity, in_use; simpl; lia).
      now rewrite IH.
  - intros K HK. unfold newSemaphore, make_chan.
    apply Z.ltb_lt in HK. rewrite HK. eauto.
Qed.

(** ** The options *)

Lemma apply_all_sem (opts : list Option) :
  forall h, sem (apply_all opts h) = sem h.
Proof.
  unfold apply_all. induction opts as [|opt opts IH]; intros h; simpl; [reflexivity|].
  rewrite IH. now destruct opt.
Qed.

Lemma apply_all_client (opts : list Option) :
  forall h, client (apply_all opts h) = default (client h) (client_set opts).
Proof.
  unfold apply_all. induction opts as [|opt opts IH]; intros h; simpl; [reflexivity|].
  rewrite IH. destruct (client_set opts); [reflexivity|]. now destruct opt.
Qed.

Lemma apply_all_logger (opts : list Option) :
  forall h, logger (apply_all opts h) = default (logger h) (logger_set opts).
Proof.
  unfold apply_all. induction opts as [|opt opts IH]; intros h; simpl; [reflexivity|].
  rewrite IH. destruct (logger_set opts); [reflexivity|]. now destruct opt.
Qed.

Lemma apply_all_maxRequests_last (opts : list Option) (L : Z) :
  forall h, maxRequests (apply_all (opts ++ [LimitRequests L]) h) = L.
Proof.
  intros h. unfold apply_all. now rewrite fold_left_app.
Qed.

Lemma client_set_app (opts1 opts2 : list Option) :
  client_set (opts1 ++ opts2) =
  match client_set opts2 with Some c => Some c | None => client_set opts1 end.
Proof.
  induction opts1 as [|opt opts1 IH]; simpl.
  - now destruct (client_set opts2).
  - rewrite IH. now destruct (client_set opts2).
Qed.

Lemma logger_set_app (opts1 opts2 : list Option) :
  logger_set (opts1 ++ opts2) =
  match logger_set opts2 with Some l => Some l | None => logger_set opts1 end.
Proof.
  induction opts1 as [|opt opts1 IH]; simpl.
  - now destruct (logger_set opts2).
  - rewrite IH. now destruct (logger_set opts2).
Qed.

(** What [NewHandler] returns, field by field. *)
Lemma NewHandler_fields (opts : list Option) :
  exists h, NewHandler defaultLogger defaultClient opts = Returns h /\
    capacity (sem h) = defaultMaxIncomingRequests /\ in_use (sem h) = 0 /\
    client h = Some (default defaultClient (mjoin (client_set opts))) /\
    logger h = Some (default defaultLogger (mjoin (logger_set opts))) /\
    maxRequests h = maxRequests (apply_all opts
      {| sem := {| ch := {| chan_cap := 100; chan_len := 0 |} |};
         logger := None; client := None; maxRequests := 0 |}).
Proof.
  unfold NewHandler. simpl.
  set (h0 := {| sem := _; logger := None; client := None; maxRequests := 0 |}).
  pose proof (apply_all_sem opts h0) as Hs.
  pose proof (apply_all_client opts h0) as Hc.
  pose proof (apply_all_logger opts h0) as Hl.
  set (h1 := apply_all opts h0) in *.
  simpl in Hc, Hl. eexists. split; [reflexivity|].
  destruct (client_set opts) as [[c|]|], (logger_set opts) as [[l|]|];
    simpl in Hc, Hl; rewrite Hc, Hl; simpl; rewrite ?Hc, ?Hl, ?Hs; simpl;
    repeat split; reflexivity.
Qed.

(** C4.  Whatever the options, also with [LimitRequests L] as the last of
    them, the gate of the handler [NewHandler] returns has capacity 100:
    the option only stores [L] in [maxRequests]. *)
Theorem NewHandler_LimitRequests_gate (opts : list Option) (L : Z) :
  exists h,
    NewHandler defaultLogger defaultClient (opts ++ [LimitRequests L]) = Returns h /\
    maxRequests h = L /\ capacity (sem h) = 100 /\ in_use (sem h) = 0.
Proof.
  destruct (NewHandler_fields (opts ++ [LimitRequests L]))
    as (h & Hn & Hcap & Hlen & _ & _ & Hmax).
  exists h. rewrite apply_all_maxRequests_last in Hmax. auto.
Qed.

(** C10.  In [NewHandler (opts1 ++ opt :: opts2)] a client (logger) option
    [opt] that no later option of its kind follows decides the client
    (logger) whatever [opts1] holds; a nil payload gives the default; and
    an option list with no option of a kind gives the default for it. *)
Theorem NewHandler_last_option_wins (opts1 opts2 : list Option) :
  (forall c, sets_client opts2 = false ->
     exists h,
       NewHandler defaultLogger defaultClient (opts1 ++ WithClient c :: opts2)
       = Returns h /\
       client h = Some (default defaultClient c)) /\
  (forall l, sets_logger opts2 = false ->
     exists h,
       NewHandler defaultLogger defaultClient (opts1 ++ WithLogger l :: opts2)
       = Returns h /\
       logger h = Some (default defaultLogger l)) /\
  (sets_client opts1 = false ->
     exists h, NewHandler defaultLogger defaultClient opts1 = Returns h /\
       client h = Some defaultClient) /\
  (sets_logger opts1 = false ->
     exists h, NewHandler defaultLogger defaultClient opts1 = Returns h /\
       logger h = Some defaultLogger).
Proof.
  unfold sets_client, sets_logger. repeat split.
  - intros c Hno.
    destruct (NewHandler_fields (opts1 ++ WithClient c :: opts2))
      as (h & Hn & _ & _ & Hc & _).
    exists h. split; [exact Hn|]. rewrite Hc, client_set_app. simpl.
    now destruct (client_set opts2).
  - intros l Hno.
    destruct (NewHandler_fields (opts1 ++ WithLogger l :: opts2))
      as (h & Hn & _ & _ & _ & Hl & _).
    exists h. split; [exact Hn|]. rewrite Hl, logger_set_app. simpl.
    now destruct (logger_set opts2).
  - intros Hno. destruct (NewHandler_fields opts1) as (h & Hn & _ & _ & Hc & _).
    exists h. split; [exact Hn|]. rewrite Hc. now destruct (client_set opts1).
  - intros Hno. destruct (NewHandler_fields opts1) as (h & Hn & _ & _ & _ & Hl & _).
    exists h. split; [exact Hn|]. rewrite Hl. now destruct (logger_set opts1).
Qed.

(** ** Splitting the payload *)

Lemma Split_nonempty (s : string) (sep : Ascii.ascii) : Split s sep <> [].
Proof.
  destruct s as [|a s]; simpl; [discriminate|].
  destruct (Ascii.eqb a sep); [discriminate|].
  now destruct (Split s sep).
Qed.

Lemma Split_length (s : string) (sep : Ascii.ascii) :
  length (Split s sep) = S (Count s sep).
Proof.
  induction s as [|a s IH]; simpl; [reflexivity|].
  destruct (Ascii.eqb a sep); simpl; [now rewrite IH|].
  rewrite <- IH. now destruct (Split s sep).
Qed.

Lemma Split_trailing_sep (s : string) (sep : Ascii.ascii) :
  Split (s +:+ String sep EmptyString) sep = Split s sep ++ [EmptyString].
Proof.
  induction s as [|a s IH]; simpl.
  - now rewrite Ascii.eqb_refl.
  - rewrite IH. destruct (Ascii.eqb a sep); [reflexivity|].
    pose proof (Split_nonempty s sep). now destruct (Split s sep).
Qed.

(** ** The engine: list bookkeeping *)

Lemma insert_split {A : Type} (ts : list A) (i : nat) (t t' : A) :
  ts !! i = Some t ->
  exists l1 l2, ts = l1 ++ t :: l2 /\ <[i:=t']> ts = l1 ++ t' :: l2.
Proof.
  intros Hi. exists (take i ts), (drop (S i) ts). split.
  - symmetry. now apply take_drop_middle.
  - apply insert_take_drop. now apply lookup_lt_Some in Hi.
Qed.

Lemma flat_map_insert_add {A B : Type} (f : A -> list B) (ts : list A)
    (i : nat) (t t' : A) :
  ts !! i = Some t -> f t = [] ->
  flat_map f (<[i:=t']> ts) ≡ₚ flat_map f ts ++ f t'.
Proof.
  intros Hi Hf. destruct (insert_split ts i t t' Hi) as (l1 & l2 & -> & ->).
  rewrite !flat_map_app. simpl. rewrite Hf. simpl.
  rewrite <- app_assoc. apply Permutation_app_head, Permutation_app_comm.
Qed.

Lemma flat_map_insert_idle {A B : Type} (f : A -> list B) (ts : list A)
    (i : nat) (t t' : A) :
  ts !! i = Some t -> f t = [] -> f t' = [] ->
  flat_map f (<[i:=t']> ts) = flat_map f ts.
Proof.
  intros Hi Hf Hf'. destruct (insert_split ts i t t' Hi) as (l1 & l2 & -> & ->).
  rewrite !flat_map_app. simpl. now rewrite Hf, Hf'.
Qed.

Lemma sum_insert {A : Type} (g : A -> nat) (ts : list A) (i : nat) (t t' : A) :
  ts !! i = Some t ->
  (sum_list_with g (<[i:=t']> ts) + g t = sum_list_with g ts + g t')%nat.
Proof.
  intros Hi. destruct (insert_split ts i t t' Hi) as (l1 & l2 & -> & ->).
  rewrite !sum_list_with_app. simpl. lia.
Qed.

Lemma urls_insert (ts : list Task) (i : nat) (t t' : Task) :
  ts !! i = Some t -> t_url t' = t_url t ->
  t_url <$> <[i:=t']> ts = t_url <$> ts.
Proof.
  intros Hi Hu. destruct (insert_split ts i t t' Hi) as (l1 & l2 & -> & ->).
  rewrite !fmap_app. simpl. now rewrite Hu.
Qed.

Lemma live_none_done (ts : list Task) :
  sum_list_with live ts = 0%nat -> forallb task_done ts = true.
Proof.
  induction ts as [|t ts IH]; simpl; [reflexivity|].
  unfold live at 1. destruct (task_done t); simpl; [exact IH|lia].
Qed.

Lemma done_none_live (ts : list Task) :
  forallb task_done ts = true -> sum_list_with live ts = 0%nat.
Proof.
  induction ts as [|t ts IH]; simpl; [reflexivity|].
  unfold live at 1. destruct (task_done t); simpl; [exact IH|discriminate].
Qed.

Lemma live_some (ts : list Task) :
  sum_list_with live ts <> 0%nat ->
  exists i t, ts !! i = Some t /\ task_done t = false.
Proof.
  induction ts as [|t ts IH]; simpl; [congruence|].
  destruct (task_done t) eqn:Hd.
  - unfold live at 1. rewrite Hd. simpl. intros Hne.
    destruct (IH Hne) as (i & t' & Hi & Hd'). now exists (S i), t'.
  - intros _. now exists 0%nat, t.
Qed.

Lemma done_sizes (c : Client) (ts : list Task) :
  forallb task_done ts = true ->
  flat_map (emitted_by c) ts = successes c (t_url <$> ts).
Proof.
  unfold successes. induction ts as [|t ts IH]; simpl; [reflexivity|].
  intros [Hd Hds]%andb_prop. unfold emitted_by at 1. rewrite Hd.
  now rewrite IH.
Qed.

Lemma successes_failures_length (c : Client) (urls : list string) :
  (length (successes c urls) + length (failures c urls) = length urls)%nat.
Proof.
  unfold successes, failures. induction urls as [|u urls IH]; simpl; [reflexivity|].
  rewrite !length_app. unfold size_of at 1, error_of at 1.
  destruct (fetch_size c u); simpl; lia.
Qed.

(** ** The engine: the invariant is kept by every step *)

Section EngineFacts.

Variable h : Handler.
Variable c : Client.
Variable l : Logger.
Hypothesis Hclient : client h = Some c.
Hypothesis Hlogger : logger h = Some l.

Lemma inv_fetch (urls : list string) : Inv c l urls (fetch urls).
Proof. split; simpl; try reflexivity; try constructor; discriminate. Qed.

Lemma live_task_wg (urls : list string) (s : Engine) (i : nat) (t : Task) :
  Inv c l urls s -> tasks s !! i = Some t -> task_done t = false -> 0 < wg s.
Proof.
  intros HI Hi Hd. rewrite (inv_wg _ _ _ _ HI).
  pose proof (sum_insert live (tasks s) i t t Hi) as Hs.
  destruct (insert_split (tasks s) i t t Hi) as (l1 & l2 & Heq & _).
  rewrite Heq, sum_list_with_app. simpl. unfold live at 2. rewrite Hd. lia.
Qed.

Lemma live_task_open (urls : list string) (s : Engine) (i : nat) (t : Task) :
  Inv c l urls s -> tasks s !! i = Some t -> task_done t = false ->
  closed s = false /\ exists rest, spawner s = SLoop rest.
Proof.
  intros HI Hi Hd. pose proof (live_task_wg urls s i t HI Hi Hd) as Hwg.
  pose proof (inv_spawner _ _ _ _ HI) as Hsp.
  destruct (spawner s); [eauto|lia|lia].
Qed.

Lemma inv_spawn (urls : list string) (s : Engine) (url : string) (rest : list string) :
  Inv c l urls s -> spawner s = SLoop (url :: rest) -> Inv c l urls (spawn url rest s).
Proof.
  intros [Hu Ht Hw Hr Hl Hs Hrd] Hsp. rewrite Hsp in Hu, Hs. simpl in Hu.
  split; simpl.
  - rewrite fmap_app, <- app_assoc. exact Hu.
  - apply Forall_app. split; [exact Ht|]. repeat constructor.
  - rewrite Hw, sum_list_with_app. simpl. lia.
  - rewrite flat_map_app. simpl. now rewrite app_nil_r.
  - rewrite flat_map_app. simpl. now rewrite app_nil_r.
  - exact Hs.
  - exact Hrd.
Qed.

Lemma inv_advance (urls : list string) (s : Engine) (i : nat) (t t' : Task) :
  Inv c l urls s -> tasks s !! i = Some t ->
  task_done t = false -> task_done t' = false ->
  t_url t' = t_url t -> task_ok c t' ->
  Inv c l urls (set_task i t' s).
Proof.
  intros [Hu Ht Hw Hr Hl Hs Hrd] Hi Hd Hd' Hurl Hok. split; simpl.
  - now rewrite (urls_insert _ _ t).
  - now apply Forall_insert.
  - pose proof (sum_insert live (tasks s) i t t' Hi) as Hsum.
    unfold live at 2 4 in Hsum. rewrite Hd, Hd' in Hsum. lia.
  - rewrite (flat_map_insert_idle _ _ _ t); [exact Hr| exact Hi | |];
      unfold emitted_by; now rewrite ?Hd, ?Hd'.
  - rewrite (flat_map_insert_idle _ _ _ t); [exact Hl| exact Hi | |];
      unfold logged_by; now rewrite ?Hd, ?Hd'.
  - exact Hs.
  - exact Hrd.
Qed.

Lemma inv_fail (urls : list string) (s s' : Engine) (i : nat) (t : Task) (e : error) :
  Inv c l urls s -> tasks s !! i = Some t -> task_done t = false ->
  fetch_size c (t_url t) = Err e ->
  fail_task h i (t_url t) e s = Some s' ->
  Inv c l urls s'.
Proof.
  intros HI Hi Hd Hfs. unfold fail_task. rewrite Hlogger. intros [= <-].
  destruct (live_task_open urls s i t HI Hi Hd) as (Hcl & rest & Hsp).
  destruct HI as [Hu Ht Hw Hr Hl Hs Hrd]. split; simpl.
  - now rewrite (urls_insert _ _ t).
  - now apply Forall_insert.
  - pose proof (sum_insert live (tasks s) i t {| t_url := t_url t; t_pc := TDone |} Hi)
      as Hsum.
    unfold live at 2 4 in Hsum. rewrite Hd in Hsum. simpl in Hsum. lia.
  - rewrite (flat_map_insert_add _ _ _ t) by
      (try exact Hi; unfold emitted_by; now rewrite Hd).
    unfold emitted_by at 2. simpl. unfold size_of. rewrite Hfs.
    now rewrite app_nil_r.
  - rewrite (flat_map_insert_add _ _ _ t) by
      (try exact Hi; unfold logged_by; now rewrite Hd).
    unfold logged_by at 2. simpl. unfold error_of. rewrite Hfs. simpl.
    now apply Permutation_app_tail.
  - rewrite Hsp. exact Hcl.
  - exact Hrd.
Qed.

Lemma inv_emit (urls : list string) (s : Engine) (i : nat) (t : Task) (n : Z) :
  Inv c l urls s -> tasks s !! i = Some t -> t_pc t = TSend n ->
  Inv c l urls (emit_task i (t_url t) n s).
Proof.
  intros HI Hi Hpc.
  assert (Hd : task_done t = false) by (unfold task_done; now rewrite Hpc).
  destruct (live_task_open urls s i t HI Hi Hd) as (Hcl & rest & Hsp).
  destruct HI as [Hu Ht Hw Hr Hl Hs Hrd].
  assert (Hfs : fetch_size c (t_url t) = Ok n).
  { rewrite Forall_lookup in Ht. specialize (Ht i t Hi).
    unfold task_ok in Ht. now rewrite Hpc in Ht. }
  split; simpl.
  - now rewrite (urls_insert _ _ t).
  - now apply Forall_insert.
  - pose proof (sum_insert live (tasks s) i t {| t_url := t_url t; t_pc := TDone |} Hi)
      as Hsum.
    unfold live at 2 4 in Hsum. rewrite Hd in Hsum. simpl in Hsum. lia.
  - rewrite (flat_map_insert_add _ _ _ t) by
      (try exact Hi; unfold emitted_by; now rewrite Hd).
    unfold emitted_by at 2. simpl. unfold size_of. rewrite Hfs.
    now apply Permutation_app_tail.
  - rewrite (flat_map_insert_add _ _ _ t) by
      (try exact Hi; unfold logged_by; now rewrite Hd).
    unfold logged_by at 2. simpl. unfold error_of. rewrite Hfs. simpl.
    now rewrite app_nil_r.
  - rewrite Hsp. exact Hcl.
  - exact Hrd.
Qed.

Lemma inv_step (urls : list string) (a : Action) (s s' : Engine) :
  Inv c l urls s -> step h a s = Some s' -> Inv c l urls s'.
Proof.
  intros HI. destruct a as [|i| |]; simpl.
  - unfold step_spawner. destruct (spawner s) as [[|url rest]| |] eqn:Hsp.
    + destruct (wg s =? 0) eqn:Hwg; [|discriminate]. intros [= <-].
      apply Z.eqb_eq in Hwg. destruct HI as [Hu Ht Hw Hr Hl Hs Hrd].
      rewrite Hsp in Hu, Hs. split; simpl; auto.
    + intros [= <-]. now apply inv_spawn.
    + intros [= <-]. destruct HI as [Hu Ht Hw Hr Hl Hs Hrd].
      rewrite Hsp in Hu, Hs. split; simpl; auto. now split.
    + discriminate.
  - unfold step_task. destruct (tasks s !! i) as [t|] eqn:Hi; [|discriminate].
    destruct (t_pc t) as [|resp|n|] eqn:Hpc.
    + rewrite Hclient.
      assert (Hd : task_done t = false) by (unfold task_done; now rewrite Hpc).
      destruct (Get c (t_url t)) as [resp|e] eqn:Hget.
      * intros [= <-]. now apply (inv_advance urls s i t).
      * apply (inv_fail urls s s' i t e HI Hi Hd).
        unfold fetch_size. now rewrite Hget.
    + assert (Hd : task_done t = false) by (unfold task_done; now rewrite Hpc).
      assert (Hget : Get c (t_url t) = Ok resp).
      { pose proof (inv_tasks _ _ _ _ HI) as Ht. rewrite Forall_lookup in Ht.
        specialize (Ht i t Hi). unfold task_ok in Ht. now rewrite Hpc in Ht. }
      destruct (ReadAll (Body resp)) as [content [e|]] eqn:Hread.
      * apply (inv_fail urls s s' i t e HI Hi Hd).
        unfold fetch_size. now rewrite Hget, Hread.
      * intros [= <-]. apply (inv_advance urls s i t); auto.
        unfold task_ok, fetch_size. cbn [t_url t_pc]. now rewrite Hget, Hread.
    + destruct (reader s), (closed s); try discriminate.
      intros [= <-]. now apply inv_emit.
    + discriminate.
  - unfold step_reader. destruct (reader s) eqn:Hr, (closed s) eqn:Hcl; try discriminate.
    intros [= <-]. destruct HI as [Hu Ht Hw Hrc Hl Hs Hrd]. split; simpl; auto.
  - unfold step_abandon. destruct (reader s); try discriminate.
    intros [= <-]. destruct HI as [Hu Ht Hw Hrc Hl Hs Hrd]. split; simpl; auto.
    discriminate.
Qed.

Lemma inv_run (urls : list string) (sched : list Action) :
  forall s s', Inv c l urls s -> run h sched s = Some s' -> Inv c l urls s'.
Proof.
  induction sched as [|a sched IH]; intros s s' HI; simpl.
  - now intros [= <-].
  - destruct (step h a s) as [s1|] eqn:Hst; [|discriminate].
    apply IH. eapply inv_step; eauto.
Qed.

(** ** The engine: termination and progress *)

Lemma step_fuel (a : Action) (s s' : Engine) :
  step h a s = Some s' -> (fuel s' < fuel s)%nat.
Proof.
  unfold fuel. destruct a as [|i| |]; simpl.
  - unfold step_spawner. destruct (spawner s) as [[|url rest]| |] eqn:Hsp.
    + destruct (wg s =? 0); [|discriminate]. intros [= <-]. simpl. lia.
    + intros [= <-]. simpl. rewrite sum_list_with_app. simpl. lia.
    + intros [= <-]. simpl. lia.
    + discriminate.
  - unfold step_task, fail_task. rewrite Hlogger.
    destruct (tasks s !! i) as [t|] eqn:Hi; [|discriminate].
    destruct (t_pc t) as [|resp|n|] eqn:Hpc.
    + rewrite Hclient. destruct (Get c (t_url t)); intros [= <-]; simpl;
        match goal with |- context [<[i:=?t']> _] =>
          pose proof (sum_insert task_fuel (tasks s) i t t' Hi) as Hs end;
        unfold task_fuel at 2 4 in Hs; rewrite Hpc in Hs; simpl in Hs; lia.
    + destruct (ReadAll (Body resp)) as [content [e|]]; intros [= <-]; simpl;
        match goal with |- context [<[i:=?t']> _] =>
          pose proof (sum_insert task_fuel (tasks s) i t t' Hi) as Hs end;
        unfold task_fuel at 2 4 in Hs; rewrite Hpc in Hs; simpl in Hs; lia.
    + destruct (reader s) eqn:Hrd, (closed s); try discriminate.
      intros [= <-]; simpl. rewrite Hrd. simpl.
      match goal with |- context [<[i:=?t']> _] =>
        pose proof (sum_insert task_fuel (tasks s) i t t' Hi) as Hs end.
      unfold task_fuel at 2 4 in Hs; rewrite Hpc in Hs; simpl in Hs; lia.
    + discriminate.
  - unfold step_reader. destruct (reader s), (closed s); try discriminate.
    intros [= <-]. simpl. lia.
  - unfold step_abandon. destruct (reader s); try discriminate.
    intros [= <-]. simpl. lia.
Qed.

Lemma run_fuel (sched : list Action) :
  forall s s', run h sched s = Some s' -> (length sched + fuel s' <= fuel s)%nat.
Proof.
  induction sched as [|a sched IH]; intros s s'; simpl.
  - intros [= <-]. lia.
  - destruct (step h a s) as [s1|] eqn:Hst; [|discriminate].
    intros Hrun. apply IH in Hrun. apply step_fuel in Hst. lia.
Qed.

Lemma fuel_fetch (urls : list string) : fuel (fetch urls) = (4 * length urls + 3)%nat.
Proof. unfold fuel. simpl. lia. Qed.

Lemma step_reader_kept (a : Action) (s s' : Engine) :
  a <> AAbandon -> step h a s = Some s' -> reader s <> RGone -> reader s' <> RGone.
Proof.
  destruct a as [|i| |]; simpl; intros Ha; try congruence.
  - unfold step_spawner. destruct (spawner s) as [[|url rest]| |];
      try destruct (wg s =? 0); try discriminate; now intros [= <-].
  - unfold step_task, fail_task. rewrite Hlogger.
    destruct (tasks s !! i) as [t|]; [|discriminate].
    destruct (t_pc t) as [|resp|n|].
    + rewrite Hclient. destruct (Get c (t_url t)); now intros [= <-].
    + destruct (ReadAll (Body resp)) as [content [e|]]; now intros [= <-].
    + destruct (reader s) eqn:Hrd, (closed s); try discriminate.
      intros [= <-]. simpl. now rewrite Hrd.
    + discriminate.
  - unfold step_reader. destruct (reader s), (closed s); try discriminate.
    now intros [= <-].
Qed.

Lemma run_reader_kept (sched : list Action) :
  forall s s', drains sched = true -> run h sched s = Some s' ->
    reader s <> RGone -> reader s' <> RGone.
Proof.
  induction sched as [|a sched IH]; intros s s'; simpl.
  - now intros _ [= <-].
  - intros [Ha Hd]%andb_prop. destruct (step h a s) as [s1|] eqn:Hst; [|discriminate].
    intros Hrun Hr. apply (IH s1 s' Hd Hrun).
    apply (step_reader_kept a s s1); auto. now destruct a.
Qed.

(** A live task can move unless it waits at its send for a caller that
    has gone. *)
Lemma live_task_steps (urls : list string) (s : Engine) (i : nat) (t : Task) :
  Inv c l urls s -> tasks s !! i = Some t -> task_done t = false ->
  reader s <> RGone \/ blocked_at_send t = false ->
  exists s', step h (ATask i) s = Some s'.
Proof.
  intros HI Hi Hd Hr. destruct (live_task_open urls s i t HI Hi Hd) as (Hcl & rest & Hsp).
  simpl. unfold step_task, fail_task. rewrite Hi, Hlogger, Hclient.
  unfold task_done in Hd. unfold blocked_at_send in Hr.
  destruct (t_pc t) as [|resp|n|]; try discriminate.
  - destruct (Get c (t_url t)); eauto.
  - destruct (ReadAll (Body resp)) as [content [e|]]; eauto.
  - rewrite Hcl. destruct (reader s) eqn:Hrd; eauto.
    + pose proof (inv_reader _ _ _ _ HI Hrd). congruence.
    + destruct Hr; congruence.
Qed.

Lemma progress (urls : list string) (s : Engine) :
  Inv c l urls s -> reader s <> RGone ->
  finished s = true \/ exists a s', a <> AAbandon /\ step h a s = Some s'.
Proof.
  intros HI Hr. pose proof (inv_spawner _ _ _ _ HI) as Hs.
  unfold finished. destruct (spawner s) as [[|url rest]| |] eqn:Hsp.
  - right. destruct (wg s =? 0) eqn:Hwg.
    + exists ASpawner. eexists. split; [discriminate|].
      simpl. unfold step_spawner. now rewrite Hsp, Hwg.
    + apply Z.eqb_neq in Hwg. rewrite (inv_wg _ _ _ _ HI) in Hwg.
      destruct (live_some (tasks s)) as (i & t & Hi & Hd); [lia|].
      destruct (live_task_steps urls s i t HI Hi Hd) as [s' Hst]; [now left|].
      exists (ATask i), s'. split; [discriminate|exact Hst].
  - right. exists ASpawner. eexists. split; [discriminate|].
    simpl. unfold step_spawner. now rewrite Hsp.
  - right. exists ASpawner. eexists. split; [discriminate|].
    simpl. unfold step_spawner. now rewrite Hsp.
  - destruct Hs as [Hcl Hwg]. destruct (reader s) eqn:Hrd.
    + right. exists AReader. eexists. split; [discriminate|].
      simpl. unfold step_reader. now rewrite Hrd, Hcl.
    + left. apply live_none_done. rewrite (inv_wg _ _ _ _ HI) in Hwg. lia.
    + congruence.
Qed.

Lemma complete_run (urls : list string) (n : nat) :
  forall s, (fuel s <= n)%nat -> Inv c l urls s -> reader s <> RGone ->
    exists sched s', drains sched = true /\ run h sched s = Some s'
                     /\ finished s' = true.
Proof.
  induction n as [|n IH]; intros s Hf HI Hr;
    (destruct (progress urls s HI Hr) as [Hfin|(a & s1 & Ha & Hst)];
     [exists [], s; now repeat split|]);
    pose proof (step_fuel a s s1 Hst) as Hlt; [lia|].
  destruct (IH s1) as (sched & s' & Hd & Hrun & Hfin).
  - lia.
  - eapply inv_step; eauto.
  - eapply step_reader_kept; eauto.
  - exists (a :: sched), s'. simpl. rewrite Hst. repeat split; auto.
    rewrite Hd. now destruct a.
Qed.

Lemma closed_all_done (urls : list string) (s : Engine) :
  Inv c l urls s -> closed s = true ->
  spawner s = SExit /\ t_url <$> tasks s = urls /\ forallb task_done (tasks s) = true.
Proof.
  intros HI Hcl. pose proof (inv_spawner _ _ _ _ HI) as Hs.
  pose proof (inv_urls _ _ _ _ HI) as Hu.
  destruct (spawner s); try (destruct Hs; congruence); try congruence.
  simpl in Hu. rewrite app_nil_r in Hu. destruct Hs as [_ Hwg].
  repeat split; auto. apply live_none_done. rewrite (inv_wg _ _ _ _ HI) in Hwg. lia.
Qed.

Lemma finished_result (urls : list string) (s : Engine) :
  Inv c l urls s -> reader s = RExit ->
  closed s = true /\ finished s = true /\ t_url <$> tasks s = urls /\
  received s ≡ₚ successes c urls /\
  logged s ≡ₚ ((fun e => (l, e)) <$> failures c urls).
Proof.
  intros HI Hrd. pose proof (inv_reader _ _ _ _ HI Hrd) as Hcl.
  destruct (closed_all_done urls s HI Hcl) as (Hsp & Hu & Hd).
  split; [exact Hcl|]. split; [unfold finished; now rewrite Hsp, Hrd|].
  split; [exact Hu|]. split.
  - rewrite (inv_received _ _ _ _ HI), (done_sizes c _ Hd). now rewrite Hu.
  - rewrite (inv_logged _ _ _ _ HI). rewrite <- Hu. clear - Hd.
    unfold failures. induction (tasks s) as [|t ts IH]; simpl; [reflexivity|].
    simpl in Hd. apply andb_prop in Hd. destruct Hd as [Hd Hds].
    unfold logged_by at 1. rewrite Hd, fmap_app.
    apply Permutation_app_head. now apply IH.
Qed.

(** C1.  The engine started on [urls], with a caller that keeps
    receiving: a run to the finished state exists; every run takes at most
    [4 * N + 3] steps; the tasks started are the URLs taken from the
    input so far, one each and in order; the channel is closed only once
    every URL has its task and every task has returned; a run can only
    come to rest in the finished state; and there the channel is closed
    and the values received are the sizes of the fetchable URLs, each
    once.  On the empty list no task is started and nothing is received. *)
Theorem fetch_fan_out_complete (urls : list string) :
  (exists sched s, drains sched = true /\ run h sched (fetch urls) = Some s
                   /\ finished s = true) /\
  (forall sched s, drains sched = true -> run h sched (fetch urls) = Some s ->
     (length sched <= 4 * length urls + 3)%nat /\
     (t_url <$> tasks s) ++ rest_of (spawner s) = urls /\
     (closed s = true ->
        t_url <$> tasks s = urls /\ forallb task_done (tasks s) = true) /\
     (quiescent h s -> finished s = true) /\
     (finished s = true ->
        closed s = true /\ t_url <$> tasks s = urls /\
        received s ≡ₚ successes c urls)) /\
  (forall sched s, drains sched = true -> run h sched (fetch []) = Some s ->
     tasks s = [] /\ received s = []).
Proof.
  split; [|split].
  - apply (complete_run urls (fuel (fetch urls))); [lia|apply inv_fetch|discriminate].
  - intros sched s Hd Hrun.
    pose proof (inv_run urls sched _ _ (inv_fetch urls) Hrun) as HI.
    pose proof (run_reader_kept sched _ _ Hd Hrun) as Hr.
    pose proof (run_fuel sched _ _ Hrun) as Hf. rewrite fuel_fetch in Hf.
    split; [lia|]. split; [apply (inv_urls _ _ _ _ HI)|]. split; [|split].
    + intros Hcl. now destruct (closed_all_done urls s HI Hcl) as (_ & ? & ?).
    + intros Hq. destruct (progress urls s HI) as [Hfin|(a & s' & Ha & Hst)];
        [now apply Hr|exact Hfin|]. rewrite (Hq a Ha) in Hst. discriminate.
    + intros Hfin. assert (Hrd : reader s = RExit).
      { unfold finished in Hfin. destruct (spawner s), (reader s); congruence. }
      now destruct (finished_result urls s HI Hrd) as (? & _ & ? & ? & _).
  - intros sched s Hd Hrun.
    pose proof (inv_run [] sched _ _ (inv_fetch []) Hrun) as HI.
    pose proof (inv_urls _ _ _ _ HI) as Hu.
    apply app_eq_nil in Hu. destruct Hu as [Hu _]. apply fmap_nil_inv in Hu.
    split; [exact Hu|]. pose proof (inv_received _ _ _ _ HI) as Hrc.
    rewrite Hu in Hrc. simpl in Hrc. now apply Permutation_nil_r in Hrc.
Qed.

(** ** The engine: a caller that stops receiving *)




End EngineFacts.

(** ** The inbound operation *)

Lemma write_sizes_body (sizes : list Z) :
  forall w, w_body (write_sizes sizes w) = w_body w ++ (size_line <$> sizes).
Proof.
  unfold write_sizes. induction sizes as [|n sizes IH]; intros w; simpl.
  - now rewrite app_nil_r.
  - rewrite IH. unfold Fprintln, Write, WriteHeader.
    destruct (w_status w); simpl; now rewrite <- app_assoc.
Qed.

Lemma write_sizes_status (sizes : list Z) :
  forall w, w_status w = None \/ w_status w = Some StatusOK ->
    status (write_sizes sizes w) = StatusOK.
Proof.
  unfold write_sizes. induction sizes as [|n sizes IH]; intros w Hw; simpl.
  - unfold status. now destruct Hw as [-> | ->].
  - apply IH. right. unfold Fprintln, Write, WriteHeader.
    destruct Hw as [Hw | Hw]; rewrite Hw; simpl; auto.
Qed.

Lemma Error_status (w : ResponseWriter) (text : string) (code : Z) :
  w_status w = None -> status (Error w text code) = code.
Proof.
  intros Hw. unfold Error, Fprintln, Write, WriteHeader, status. simpl.
  now rewrite Hw.
Qed.

Lemma release_acquire (s s1 : semaphore) :
  acquire s = (true, s1) -> 0 <= in_use s -> release s1 = Some s.
Proof.
  unfold acquire, try_send, release, recv, in_use.
  destruct (chan_len (ch s) <? chan_cap (ch s)); [|discriminate].
  intros [= <-] Hpos. simpl.
  destruct (0 <? chan_len (ch s) + 1) eqn:Hlt; [|apply Z.ltb_ge in Hlt; lia].
  destruct s as [[cap n]]. simpl. do 3 f_equal. lia.
Qed.

Lemma set_sem_same (h : Handler) : set_sem (sem h) h = h.
Proof. now destruct h. Qed.

Lemma ServeHTTP_other_method (h : Handler) (writer : ResponseWriter)
    (request : Request) (sched : list Action) :
  String.eqb (Method request) "POST" = false ->
  ServeHTTP h writer request sched =
  Some {| o_handler := h;
          o_writer := Error writer "Method Not Allowed" StatusMethodNotAllowed;
          o_gate := []; o_engine := None |}.
Proof. intros Hm. unfold ServeHTTP. now rewrite Hm. Qed.

Lemma ServeHTTP_rejected (h : Handler) (writer : ResponseWriter)
    (request : Request) (sched : list Action) :
  String.eqb (Method request) "POST" = true ->
  capacity (sem h) <= in_use (sem h) ->
  ServeHTTP h writer request sched =
  Some {| o_handler := h;
          o_writer := Error writer "Service Unavailable" StatusServiceUnavailable;
          o_gate := [CallAcquire false]; o_engine := None |}.
Proof.
  intros Hm Hfull. unfold ServeHTTP. rewrite Hm, (acquire_full _ Hfull). simpl.
  now rewrite set_sem_same.
Qed.

Lemma ServeHTTP_admitted (h : Handler) (writer : ResponseWriter)
    (request : Request) (sched : list Action) :
  String.eqb (Method request) "POST" = true ->
  in_use (sem h) < capacity (sem h) ->
  exists s1, acquire (sem h) = (true, s1) /\ in_use s1 = in_use (sem h) + 1 /\
    capacity s1 = capacity (sem h) /\
    ServeHTTP h writer request sched =
    match guarded (set_sem s1 h) writer request sched with
    | None => None
    | Some (writer', eng) =>
        match release s1 with
        | None => None
        | Some s2 =>
            Some {| o_handler := set_sem s2 h; o_writer := writer';
                    o_gate := [CallAcquire true; CallRelease]; o_engine := eng |}
        end
    end.
Proof.
  intros Hm Hfree. destruct (acquire_free _ Hfree) as (s1 & Ha & Hl & Hc).
  exists s1. repeat split; auto. unfold ServeHTTP. now rewrite Hm, Ha.
Qed.

(** C6.  Whatever way a call of [ServeHTTP] returns: it has called
    release once if its acquire said [true] and not at all otherwise (a
    request that is not a POST makes no gate call, a rejected one makes
    the failed acquire only), and the gate it leaves has the in-use count
    and the capacity it found. *)
Theorem ServeHTTP_releases_once (h : Handler) (writer : ResponseWriter)
    (request : Request) (sched : list Action) (o : Outcome) :
  ServeHTTP h writer request sched = Some o ->
  o_gate o =
    (if negb (String.eqb (Method request) "POST") then []
     else if fst (acquire (sem h)) then [CallAcquire true; CallRelease]
     else [CallAcquire false]) /\
  releases (o_gate o) =
    (if String.eqb (Method request) "POST" && fst (acquire (sem h))
     then 1 else 0)%nat /\
  in_use (sem (o_handler o)) = in_use (sem h) /\
  capacity (sem (o_handler o)) = capacity (sem h).
Proof.
  destruct (String.eqb (Method request) "POST") eqn:Hm.
  - destruct (Z.lt_ge_cases (in_use (sem h)) (capacity (sem h))) as [Hfree|Hfull].
    + destruct (ServeHTTP_admitted h writer request sched Hm Hfree)
        as (s1 & Ha & Hl & Hc & ->).
      rewrite Ha. simpl.
      destruct (guarded (set_sem s1 h) writer request sched) as [[w' eng]|];
        [|discriminate].
      destruct (release s1) as [s2|] eqn:Hr; [|discriminate].
      intros [= <-]. simpl. apply release_inv in Hr.
      repeat split; try reflexivity; lia.
    + rewrite (ServeHTTP_rejected h writer request sched Hm Hfull).
      rewrite (acquire_full _ Hfull). intros [= <-]. now simpl.
  - rewrite (ServeHTTP_other_method h writer request sched Hm).
    intros [= <-]. now simpl.
Qed.

(** What a POST with an unreadable payload gets, by the state of the gate. *)
Lemma ServeHTTP_unreadable_outcome (h : Handler) (writer : ResponseWriter)
    (request : Request) (sched : list Action) (e : error) :
  Method request = "POST" ->
  rd_err (req_Body request) = Some e ->
  w_status writer = None ->
  0 <= in_use (sem h) ->
  exists o, ServeHTTP h writer request sched = Some o /\
    o_engine o = None /\ o_handler o = h /\
    (in_use (sem h) < capacity (sem h) ->
       status (o_writer o) = StatusBadRequest /\
       o_gate o = [CallAcquire true; CallRelease]) /\
    (capacity (sem h) <= in_use (sem h) ->
       status (o_writer o) = StatusServiceUnavailable /\
       o_gate o = [CallAcquire false]).
Proof.
  intros Hpost Herr Hw Hpos.
  assert (Hm : String.eqb (Method request) "POST" = true) by now rewrite Hpost.
  destruct (Z.lt_ge_cases (in_use (sem h)) (capacity (sem h))) as [Hfree|Hfull].
  - destruct (ServeHTTP_admitted h writer request sched Hm Hfree)
      as (s1 & Ha & Hl & Hc & ->).
    unfold guarded, ReadAll. rewrite Herr, (release_acquire _ _ Ha Hpos).
    eexists. split; [reflexivity|]. simpl. rewrite set_sem_same.
    repeat split; try lia. now apply Error_status.
  - rewrite (ServeHTTP_rejected h writer request sched Hm Hfull).
    eexists. split; [reflexivity|]. simpl.
    repeat split; try lia. now apply Error_status.
Qed.

(** C3, as the code has it.  A POST whose payload cannot be read never
    reaches [fetch] and leaves the handler as found, and its answer
    depends on the gate.  With a free slot the gate calls are one
    successful acquire and one release, and the answer is bad-request.
    With the gate full the only gate call is the failed acquire and the
    answer is service-unavailable: the very outcome every POST gets on
    that gate, whatever its payload and whatever the interleaving. *)
Theorem ServeHTTP_unreadable_payload (h : Handler) (writer : ResponseWriter)
    (request : Request) (sched : list Action) (e : error) :
  Method request = "POST" ->
  rd_err (req_Body request) = Some e ->
  w_status writer = None ->
  0 <= in_use (sem h) ->
  exists o, ServeHTTP h writer request sched = Some o /\
    o_engine o = None /\ o_handler o = h /\
    (in_use (sem h) < capacity (sem h) ->
       status (o_writer o) = StatusBadRequest /\
       o_gate o = [CallAcquire true; CallRelease]) /\
    (capacity (sem h) <= in_use (sem h) ->
       status (o_writer o) = StatusServiceUnavailable /\
       o_gate o = [CallAcquire false] /\
       forall request' sched', Method request' = "POST" ->
         ServeHTTP h writer request' sched' = Some o).
Proof.
  intros Hpost Herr Hw Hpos.
  assert (Hm : String.eqb (Method request) "POST" = true) by now rewrite Hpost.
  destruct (Z.lt_ge_cases (in_use (sem h)) (capacity (sem h))) as [Hfree|Hfull].
  - destruct (ServeHTTP_admitted h writer request sched Hm Hfree)
      as (s1 & Ha & Hl & Hc & ->).
    unfold guarded, ReadAll. rewrite Herr, (release_acquire _ _ Ha Hpos).
    eexists. split; [reflexivity|]. simpl. rewrite set_sem_same.
    split; [reflexivity|]. split; [reflexivity|]. split; [|intros; lia].
    intros _. split; [now apply Error_status|reflexivity].
  - rewrite (ServeHTTP_rejected h writer request sched Hm Hfull).
    eexists. split; [reflexivity|]. simpl.
    split; [reflexivity|]. split; [reflexivity|]. split; [intros; lia|].
    intros _. split; [now apply Error_status|]. split; [reflexivity|].
    intros request' sched' Hpost'.
    apply ServeHTTP_rejected; [now rewrite Hpost'|exact Hfull].
Qed.

Section ServeFacts.

Variable h : Handler.
Variable c : Client.
Variable l : Logger.
Hypothesis Hclient : client h = Some c.
Hypothesis Hlogger : logger h = Some l.

Lemma run_set_sem (s1 : semaphore) (sched : list Action) :
  forall e, run (set_sem s1 h) sched e = run h sched e.
Proof.
  induction sched as [|a sched IH]; intros e; simpl; [reflexivity|].
  assert (Hst : step (set_sem s1 h) a e = step h a e) by now destruct a.
  rewrite Hst. destruct (step h a e); [apply IH|reflexivity].
Qed.

Lemma finished_reader (e : Engine) : finished e = true -> reader e = RExit.
Proof. unfold finished. destruct (spawner e), (reader e); congruence. Qed.

(** The guarded region on a readable payload: it returns for some
    interleaving, and every time it returns the engine has run on the
    lines of the payload up to the end of the range loop. *)
Lemma guarded_readable (s1 : semaphore) (writer : ResponseWriter) (request : Request) :
  rd_err (req_Body request) = None ->
  let urls := Split (rd_data (req_Body request)) LF in
  (exists sched r, guarded (set_sem s1 h) writer request sched = Some r) /\
  (forall sched w' eng,
     guarded (set_sem s1 h) writer request sched = Some (w', eng) ->
     exists e, eng = Some e /\ run h sched (fetch urls) = Some e /\
       reader e = RExit /\
       w' = write_sizes (received e) (with_content_type writer)).
Proof.
  intros Herr urls. unfold guarded, ReadAll. rewrite Herr. fold urls. split.
  - destruct (complete_run h c l Hclient Hlogger urls (fuel (fetch urls)) (fetch urls))
      as (sched & e & _ & Hrun & Hfin); [lia|apply inv_fetch|discriminate|].
    exists sched. rewrite run_set_sem, Hrun. unfold loop_ended.
    rewrite (finished_reader e Hfin). eauto.
  - intros sched w' eng. rewrite run_set_sem.
    destruct (run h sched (fetch urls)) as [e|] eqn:Hrun; [|discriminate].
    unfold loop_ended. destruct (reader e) eqn:Hrd; try discriminate.
    intros [= <- <-]. exists e. auto.
Qed.

(** C5.  A POST on a fresh response writer and a well-formed gate.  The
    call returns for some interleaving.  Whenever it returns, either the
    gate was full and the answer is service-unavailable, or the payload
    was unreadable and the answer is bad-request, or the answer is
    success: then the engine has run on the [N] lines of the payload, the
    handler's logger has been given the errors of the [M] URLs whose
    fetch fails, each once, no size was received for them, and the body
    has grown by one size line per fetchable URL, [N - M] lines. *)
Theorem ServeHTTP_absorbs_fetch_failures (writer : ResponseWriter) (request : Request) :
  Method request = "POST" ->
  w_status writer = None ->
  0 <= in_use (sem h) ->
  let urls := Split (rd_data (req_Body request)) LF in
  (exists sched o, ServeHTTP h writer request sched = Some o) /\
  (forall sched o, ServeHTTP h writer request sched = Some o ->
     (capacity (sem h) <= in_use (sem h) /\
      status (o_writer o) = StatusServiceUnavailable /\ o_engine o = None) \/
     (in_use (sem h) < capacity (sem h) /\ rd_err (req_Body request) <> None /\
      status (o_writer o) = StatusBadRequest /\ o_engine o = None) \/
     (in_use (sem h) < capacity (sem h) /\ rd_err (req_Body request) = None /\
      status (o_writer o) = StatusOK /\
      exists e, o_engine o = Some e /\
        logged e ≡ₚ ((fun err => (l, err)) <$> failures c urls) /\
        received e ≡ₚ successes c urls /\
        w_body (o_writer o) = w_body writer ++ (size_line <$> received e) /\
        length (received e) = (length urls - length (failures c urls))%nat)).
Proof.
  intros Hpost Hw Hpos urls.
  assert (Hm : String.eqb (Method request) "POST" = true) by now rewrite Hpost.
  destruct (Z.lt_ge_cases (in_use (sem h)) (capacity (sem h))) as [Hfree|Hfull].
  - destruct (rd_err (req_Body request)) as [err|] eqn:Herr.
    + split.
      * destruct (ServeHTTP_unreadable_outcome h writer request [] err
                    Hpost Herr Hw Hpos) as (o & Ho & _). eauto.
      * intros sched o Ho. right. left.
        destruct (ServeHTTP_unreadable_outcome h writer request sched err
                    Hpost Herr Hw Hpos) as (o' & Ho' & Heng & _ & Hbad & _).
        rewrite Ho in Ho'. injection Ho' as <-.
        destruct (Hbad Hfree) as [Hst _]. repeat split; auto.
    + split.
      * destruct (ServeHTTP_admitted h writer request [] Hm Hfree)
          as (s1 & Ha & _).
        destruct (guarded_readable s1 writer request Herr) as [(sched & r & Hg) _].
        destruct (ServeHTTP_admitted h writer request sched Hm Hfree)
          as (s1' & Ha' & _ & _ & Hserve).
        rewrite Ha in Ha'. injection Ha' as <-.
        rewrite Hg, (release_acquire _ _ Ha Hpos) in Hserve.
        destruct r as [w' eng]. eauto.
      * intros sched o. destruct (ServeHTTP_admitted h writer request sched Hm Hfree)
          as (s1 & Ha & _ & _ & ->).
        destruct (guarded (set_sem s1 h) writer request sched) as [[w' eng]|] eqn:Hg;
          [|discriminate].
        rewrite (release_acquire _ _ Ha Hpos). intros [= <-]. simpl.
        right. right.
        destruct (guarded_readable s1 writer request Herr) as [_ Hall].
        destruct (Hall sched w' eng Hg) as (e & -> & Hrun & Hrd & ->).
        pose proof (inv_run h c l Hclient Hlogger _ sched _ _
                      (inv_fetch c l _) Hrun) as HI.
        destruct (finished_result c l _ e HI Hrd) as (_ & _ & _ & Hrec & Hlog).
        repeat split; auto.
        -- apply write_sizes_status. now left.
        -- exists e. repeat split; auto.
           ++ now rewrite write_sizes_body.
           ++ rewrite Hrec. pose proof (successes_failures_length c urls).
              fold urls. lia.
  - split.
    + exists []. rewrite (ServeHTTP_rejected h writer request [] Hm Hfull). eauto.
    + intros sched o. rewrite (ServeHTTP_rejected h writer request sched Hm Hfull).
      intros [= <-]. left. simpl. repeat split; auto. now apply Error_status.
Qed.

(** C9.  An admitted POST with a readable payload: whenever the call
    returns, the engine has been started on the pieces of the payload,
    one more than the payload has line feeds, so at least one, and each
    piece has its task, which has returned.  On the empty payload that is
    the single task for the empty URL; if the client refuses the empty
    URL, its error is the one line logged and nothing is received.  A
    payload that ends in a line feed has the empty URL as its last task. *)
Theorem ServeHTTP_never_empty_batch (writer : ResponseWriter) (request : Request) :
  Method request = "POST" ->
  in_use (sem h) < capacity (sem h) ->
  rd_err (req_Body request) = None ->
  forall sched o, ServeHTTP h writer request sched = Some o ->
    exists e, o_engine o = Some e /\
      t_url <$> tasks e = Split (rd_data (req_Body request)) LF /\
      length (tasks e) = S (Count (rd_data (req_Body request)) LF) /\
      (1 <= length (tasks e))%nat /\
      forallb task_done (tasks e) = true /\
      (rd_data (req_Body request) = EmptyString ->
         tasks e = [{| t_url := EmptyString; t_pc := TDone |}] /\
         forall msg, Get c EmptyString = Err msg ->
           logged e = [(l, msg)] /\ received e = []) /\
      (forall s, rd_data (req_Body request) = s +:+ String LF EmptyString ->
         last (t_url <$> tasks e) = Some EmptyString).
Proof.
  intros Hpost Hfree Herr sched o.
  assert (Hm : String.eqb (Method request) "POST" = true) by now rewrite Hpost.
  destruct (ServeHTTP_admitted h writer request sched Hm Hfree)
    as (s1 & Ha & _ & _ & ->).
  destruct (guarded (set_sem s1 h) writer request sched) as [[w' eng]|] eqn:Hg;
    [|discriminate].
  destruct (release s1) as [s2|]; [|discriminate]. intros [= <-]. simpl.
  destruct (guarded_readable s1 writer request Herr) as [_ Hall].
  destruct (Hall sched w' eng Hg) as (e & -> & Hrun & Hrd & _).
  pose proof (inv_run h c l Hclient Hlogger _ sched _ _ (inv_fetch c l _) Hrun) as HI.
  destruct (finished_result c l _ e HI Hrd) as (Hcl & _ & Hu & Hrec & Hlog).
  destruct (closed_all_done c l _ e HI Hcl) as (_ & _ & Hdone).
  assert (Hlen : length (tasks e) = S (Count (rd_data (req_Body request)) LF)).
  { rewrite <- Split_length, <- Hu. now rewrite length_fmap. }
  exists e. split; [reflexivity|]. split; [exact Hu|]. split; [exact Hlen|].
  split; [lia|]. split; [exact Hdone|]. split.
  - intros Hempty. rewrite Hempty in Hu, Hrec, Hlog. simpl in Hu.
    destruct (tasks e) as [|[u pc] [|t ts]]; try discriminate.
    simpl in Hu, Hdone. injection Hu as ->. unfold task_done in Hdone. simpl in Hdone.
    split; [destruct pc; try discriminate; reflexivity|].
    intros msg Hget. unfold successes, failures in *. simpl in Hrec, Hlog.
    unfold size_of, error_of, fetch_size in *. rewrite Hget in Hrec, Hlog.
    simpl in Hrec, Hlog. split.
    + now apply Permutation_singleton_r in Hlog.
    + now apply Permutation_nil_r in Hrec.
  - intros s Hs. rewrite Hu, Hs, Split_trailing_sep. apply last_snoc.
Qed.

End ServeFacts.

End PackageFacts.

(** * The properties on the sample data *)

Lemma sample_gate_in_range : 0 <= Gate.in_use (sem sample_handler).
Proof. unfold Gate.in_use. simpl. lia. Qed.

Lemma sample_gate_free :
  Gate.in_use (sem sample_handler) < Gate.capacity (sem sample_handler).
Proof. unfold Gate.in_use, Gate.capacity. simpl. lia. Qed.


Lemma gate_capacity_invariant_witness :
  0 <= 2 /\ Gate.newSemaphore 2 = Returns (sample_gate 2 0) /\
  Gate.acquire (sample_gate 2 2) = (false, sample_gate 2 2) /\
  (exists s2, Gate.acquire (sample_gate 2 1) = (true, s2)
              /\ Gate.acquire s2 = (false, s2)) /\
  fst (Gate.calls (replicate 3 Gate.Acquire) (sample_gate 2 1))
  = [true; false; false] /\
  (exists s1, Gate.release (sample_gate 2 2) = Some s1 /\ Gate.in_use s1 = 1) /\
  (exists s1 s2, Gate.release (sample_gate 2 2) = Some s1
                 /\ Gate.acquire s1 = (true, s2) /\ Gate.acquire s2 = (false, s2)).
Proof.
  assert (H0 : 0 <= 2) by lia.
  split; [exact H0|]. split; [reflexivity|].
  destruct (gate_capacity_invariant 2 (sample_gate 2 0) H0 eq_refl
              [Gate.Acquire; Gate.Acquire] (sample_gate 2 2) eq_refl)
    as (_ & _ & _ & Hfull & Hrel & Hrow & Hheld & _ & Hcycle).
  split; [apply Hfull; reflexivity|].
  split; [apply (Hrel eq_refl (sample_gate 2 1) eq_refl)|].
  split; [apply (Hrow (sample_gate 2 1) 3%nat eq_refl)|].
  split.
  - destruct (Hheld eq_refl) as (s1 & Hr & Hl & _).
    exists s1. split; [exact Hr|exact Hl].
  - apply (Hcycle eq_refl eq_refl).
Defined.

Lemma gate_capacity_zero_witness :
  -1 < 0 /\ exists msg, Gate.newSemaphore (-1) = Panics msg.
Proof.
  assert (Hneg : -1 < 0) by lia.
  split; [exact Hneg|]. apply (proj2 gate_capacity_zero (-1) Hneg).
Defined.

(** With [LimitRequests 5] the handler still admits a sixth request while
    five hold their slots. *)
Lemma NewHandler_LimitRequests_5 :
  exists h, NewHandler "std" sample_client [LimitRequests 5] = Returns h /\
    maxRequests h = 5 /\ Gate.capacity (sem h) = 100 /\
    fst (Gate.calls (replicate 6 Gate.Acquire) (sem h)) = replicate 6 true.
Proof. eexists. split; [reflexivity|]. now repeat split. Qed.

Lemma NewHandler_last_option_wins_witness :
  sets_client [WithLogger (Some "audit")] = false /\
  exists h, NewHandler "std" sample_client
              ([WithClient (Some offline_client); LimitRequests 5]
               ++ WithClient None :: [WithLogger (Some "audit")]) = Returns h /\
    client h = Some sample_client.
Proof.
  split; [reflexivity|].
  destruct (NewHandler_last_option_wins "std" sample_client
              [WithClient (Some offline_client); LimitRequests 5]
              [WithLogger (Some "audit")]) as (Hc & _).
  apply (Hc None eq_refl).
Defined.

Lemma fetch_fan_out_complete_witness :
  client sample_handler = Some sample_client /\
  logger sample_handler = Some "audit" /\
  exists s, run sample_handler sample_sched (fetch ["http://a"; "http://c"]) = Some s /\
    closed s = true /\ t_url <$> tasks s = ["http://a"; "http://c"] /\
    received s ≡ₚ successes sample_client ["http://a"; "http://c"].
Proof.
  split; [reflexivity|]. split; [reflexivity|].
  destruct (fetch_fan_out_complete sample_handler sample_client "audit"
              eq_refl eq_refl ["http://a"; "http://c"]) as (_ & Hall & _).
  eexists. split; [reflexivity|].
  destruct (Hall sample_sched _ eq_refl eq_refl) as (_ & _ & _ & _ & Hfin).
  exact (Hfin eq_refl).
Defined.



Lemma ServeHTTP_releases_once_witness :
  exists o, ServeHTTP sample_handler newRecorder sample_post sample_sched = Some o /\
    releases (o_gate o) = 1%nat /\
    Gate.in_use (sem (o_handler o)) = Gate.in_use (sem sample_handler).
Proof.
  eexists. split; [reflexivity|].
  destruct (ServeHTTP_releases_once sample_handler newRecorder sample_post
              sample_sched _ eq_refl) as (_ & Hrel & Hin & _).
  split; [exact Hrel|exact Hin].
Defined.

Lemma full_gate_in_range : 0 <= Gate.in_use (sem full_handler).
Proof. unfold Gate.in_use. simpl. lia. Qed.

Lemma full_gate_full :
  Gate.capacity (sem full_handler) <= Gate.in_use (sem full_handler).
Proof. unfold Gate.in_use, Gate.capacity. simpl. lia. Qed.

Lemma ServeHTTP_unreadable_payload_witness :
  Method unreadable_post = "POST" /\
  rd_err (req_Body unreadable_post) = Some "connection reset" /\
  w_status newRecorder = None /\
  (exists o, ServeHTTP sample_handler newRecorder unreadable_post [] = Some o /\
     o_engine o = None /\ status (o_writer o) = StatusBadRequest /\
     o_gate o = [CallAcquire true; CallRelease]) /\
  (exists o, ServeHTTP full_handler newRecorder unreadable_post [] = Some o /\
     status (o_writer o) = StatusServiceUnavailable /\
     o_gate o = [CallAcquire false] /\
     ServeHTTP full_handler newRecorder sample_post sample_sched = Some o).
Proof.
  split; [reflexivity|]. split; [reflexivity|]. split; [reflexivity|]. split.
  - destruct (ServeHTTP_unreadable_payload sample_handler newRecorder
                unreadable_post [] "connection reset" eq_refl eq_refl eq_refl
                sample_gate_in_range) as (o & Ho & Heng & _ & Hfree & _).
    destruct (Hfree sample_gate_free) as [Hst Hg].
    exists o. repeat split; assumption.
  - destruct (ServeHTTP_unreadable_payload full_handler newRecorder
                unreadable_post [] "connection reset" eq_refl eq_refl eq_refl
                full_gate_in_range) as (o & Ho & _ & _ & _ & Hfull).
    destruct (Hfull full_gate_full) as (Hst & Hg & Hany).
    exists o. split; [exact Ho|]. split; [exact Hst|]. split; [exact Hg|].
    apply (Hany sample_post sample_sched eq_refl).
Defined.

(** C3 fails on the code.  With the gate full the unreadable request is
    answered service-unavailable, not bad-request, and with a free slot
    the bad-request answer has a successful acquire and its release among
    its gate calls. *)
Lemma ServeHTTP_unreadable_payload_after_admission :
  rd_err (req_Body unreadable_post) = Some "connection reset" /\
  (exists o, ServeHTTP full_handler newRecorder unreadable_post [] = Some o /\
     status (o_writer o) = StatusServiceUnavailable /\
     status (o_writer o) <> StatusBadRequest /\
     o_gate o = [CallAcquire false]) /\
  (exists o, ServeHTTP sample_handler newRecorder unreadable_post [] = Some o /\
     status (o_writer o) = StatusBadRequest /\
     o_gate o = [CallAcquire true; CallRelease]).
Proof.
  split; [reflexivity|]. split; eexists; (split; [reflexivity|]); now repeat split.
Qed.

Lemma ServeHTTP_absorbs_fetch_failures_witness :
  Method sample_post = "POST" /\ w_status newRecorder = None /\
  exists o, ServeHTTP sample_handler newRecorder sample_post sample_sched = Some o /\
    status (o_writer o) = StatusOK /\
    exists e, o_engine o = Some e /\
      length (received e) =
        (length (Split (rd_data (req_Body sample_post)) LF)
         - length (failures sample_client
                     (Split (rd_data (req_Body sample_post)) LF)))%nat.
Proof.
  split; [reflexivity|]. split; [reflexivity|].
  destruct (ServeHTTP_absorbs_fetch_failures sample_handler sample_client "audit"
              eq_refl eq_refl newRecorder sample_post eq_refl eq_refl
              sample_gate_in_range) as (_ & Hall).
  eexists. split; [reflexivity|].
  destruct (Hall sample_sched _ eq_refl)
    as [(Hfull & _) | [(_ & Hbad & _) | (_ & _ & Hst & e & He & _ & _ & _ & Hlen)]].
  - exfalso. pose proof sample_gate_free. lia.
  - exfalso. now apply Hbad.
  - split; [exact Hst|]. exists e. split; [exact He|exact Hlen].
Defined.

Lemma ServeHTTP_never_empty_batch_witness :
  Method empty_post = "POST" /\ rd_err (req_Body empty_post) = None /\
  Get sample_client "" = Err "unsupported protocol scheme" /\
  exists o, ServeHTTP sample_handler newRecorder empty_post empty_sched = Some o /\
    exists e, o_engine o = Some e /\
      tasks e = [{| t_url := ""; t_pc := TDone |}] /\
      logged e = [("audit", "unsupported protocol scheme")] /\ received e = [].
Proof.
  split; [reflexivity|]. split; [reflexivity|]. split; [reflexivity|].
  eexists. split; [reflexivity|].
  destruct (ServeHTTP_never_empty_batch sample_handler sample_client "audit"
              eq_refl eq_refl newRecorder empty_post eq_refl sample_gate_free eq_refl
              empty_sched _ eq_refl) as (e & He & _ & _ & _ & _ & Hempty & _).
  destruct (Hempty eq_refl) as [Ht Hlog].
  destruct (Hlog _ eq_refl) as [Hl Hr].
  exists e. repeat split; assumption.
Defined.

(** * Further properties of the code *)

Section MoreFacts.

Context {Logger : Type}.
Variable defaultLogger : Logger.
Variable defaultClient : Client.

Import Gate.

Local Abbreviation Handler := (@Handler Logger).
Local Abbreviation Option := (@Option Logger).
Local Abbreviation Engine := (@Engine Logger).
Local Abbreviation Outcome := (@Outcome Logger).
Local Abbreviation fetch := (@fetch Logger).

(** ** The gate: sequences of calls *)

Lemma calls_app (cs1 cs2 : list call) :
  forall s,
    calls (cs1 ++ cs2) s =
    match calls cs1 s with
    | (oks1, Some s1) => let '(oks2, r) := calls cs2 s1 in (oks1 ++ oks2, r)
    | (oks1, None) => (oks1, None)
    end.
Proof.
  induction cs1 as [|c cs1 IH]; intros s; simpl.
  - now destruct (calls cs2 s).
  - destruct c.
    + destruct (acquire s) as [ok s']. rewrite IH.
      destruct (calls cs1 s') as [oks1 [s1|]]; [|reflexivity].
      now destruct (calls cs2 s1).
    + destruct (release s) as [s'|]; [apply IH|reflexivity].
Qed.

Lemma acquires_granted (cap : Z) (n : nat) :
  forall m, m + Z.of_nat n <= cap ->
    calls (replicate n Acquire) (gate_at cap m)
    = (replicate n true, Some (gate_at cap (m + Z.of_nat n))).
Proof.
  induction n as [|n IH]; intros m Hle.
  - simpl. now rewrite Z.add_0_r.
  - cbn [replicate calls]. unfold acquire, try_send. simpl.
    destruct (m <? cap) eqn:Hlt; [|apply Z.ltb_ge in Hlt; lia].
    fold (gate_at cap (m + 1)). rewrite IH by lia.
    do 3 f_equal. lia.
Qed.

Lemma releases_return (cap : Z) (n : nat) :
  forall m, Z.of_nat n <= m ->
    calls (replicate n Release) (gate_at cap m)
    = ([], Some (gate_at cap (m - Z.of_nat n))).
Proof.
  induction n as [|n IH]; intros m Hle.
  - simpl. now rewrite Z.sub_0_r.
  - cbn [replicate calls]. unfold release, recv. simpl.
    destruct (0 <? m) eqn:Hlt; [|apply Z.ltb_ge in Hlt; lia].
    fold (gate_at cap (m - 1)). rewrite IH by lia.
    do 3 f_equal. lia.
Qed.

(** X1.  The cycle of [TestSemaphore] for any capacity [K] and any
    [R <= K]: on a fresh gate [K] acquires are granted and one more is
    refused; [R] releases return; [R] acquires are granted again and one
    more is refused; [K] releases return and leave the gate as it was
    made, where a further release would block. *)
Theorem gate_exhaust_release_cycle (K R : nat) (s0 : semaphore) :
  (R <= K)%nat ->
  newSemaphore (Z.of_nat K) = Returns s0 ->
  calls (replicate K Acquire ++ [Acquire] ++ replicate R Release
         ++ replicate R Acquire ++ [Acquire] ++ replicate K Release) s0
  = (replicate K true ++ [false] ++ replicate R true ++ [false], Some s0)
  /\ release s0 = None.
Proof.
  intros HR Hnew. unfold newSemaphore, make_chan in Hnew.
  destruct (Z.of_nat K <? 0) eqn:Hneg; [discriminate|]. injection Hnew as <-.
  fold (gate_at (Z.of_nat K) 0). split.
  - rewrite calls_app, (acquires_granted _ K 0) by lia. rewrite Z.add_0_l.
    rewrite calls_app. cbn [calls app]. rewrite acquire_full
      by (unfold capacity, in_use; simpl; lia).
    rewrite calls_app, (releases_return _ R) by lia.
    rewrite calls_app, (acquires_granted _ R) by lia.
    replace (Z.of_nat K - Z.of_nat R + Z.of_nat R) with (Z.of_nat K) by lia.
    cbn [calls]. rewrite acquire_full
      by (unfold capacity, in_use; simpl; lia).
    rewrite (releases_return _ K) by lia.
    replace (Z.of_nat K - Z.of_nat K) with 0 by lia.
    simpl. now rewrite ?app_nil_r.
  - apply release_empty. unfold in_use. simpl. lia.
Qed.

Lemma calls_account (cs : list call) :
  forall s oks s', calls cs s = (oks, Some s') ->
    in_use s' = in_use s + Z.of_nat (granted oks) - Z.of_nat (released cs)
    /\ length oks = (length cs - released cs)%nat.
Proof.
  unfold granted, released.
  induction cs as [|c cs IH]; intros s oks s'; simpl.
  - intros [= <- <-]. simpl. lia.
  - destruct c.
    + destruct (acquire s) as [ok s1] eqn:Ha.
      destruct (calls cs s1) as [oks1 r] eqn:Hcs. intros [= <- ->].
      destruct (IH s1 oks1 s' Hcs) as [Hin Hlen].
      assert (Hs1 : in_use s1 = in_use s + (if ok then 1 else 0)).
      { destruct (Z.lt_ge_cases (in_use s) (capacity s)) as [Hlt|Hge].
        - destruct (acquire_free s Hlt) as (s2 & Ha' & Hl & _).
          rewrite Ha in Ha'. injection Ha' as -> ->. lia.
        - rewrite (acquire_full s Hge) in Ha. injection Ha as <- <-. lia. }
      pose proof (filter_length_le
                    (fun c => match c with Release => true | Acquire => false end) cs).
      destruct ok; simpl; lia.
    + destruct (release s) as [s1|] eqn:Hr; [|discriminate]. intros Hcs.
      destruct (IH s1 oks s' Hcs) as [Hin Hlen].
      apply release_inv in Hr.
      pose proof (filter_length_le
                    (fun c => match c with Release => true | Acquire => false end) cs).
      simpl. lia.
Qed.

(** X2.  Slot accounting.  When every call of a sequence on a fresh gate
    of capacity [K] has returned, the in-use count is the number of
    granted acquires minus the number of releases, and it lies between
    [0] and [K]: never more releases than grants, never more than [K]
    grants outstanding. *)
Theorem gate_slot_accounting (K : Z) (s0 s : semaphore)
    (cs : list call) (oks : list bool) :
  newSemaphore K = Returns s0 ->
  calls cs s0 = (oks, Some s) ->
  in_use s = Z.of_nat (granted oks) - Z.of_nat (released cs) /\
  0 <= Z.of_nat (granted oks) - Z.of_nat (released cs) <= K /\
  length oks = (length cs - released cs)%nat.
Proof.
  intros Hnew Hcs. destruct (newSemaphore_ok K s0 Hnew) as [Hok0 Hzero].
  destruct (calls_account cs s0 oks s Hcs) as [Hin Hlen].
  assert (Hok : gate_ok K s).
  { apply (calls_ok K cs s0 s Hok0). now rewrite Hcs. }
  destruct Hok as [_ Hb]. rewrite Hzero in Hin. repeat split; lia.
Qed.

(** ** The options: order and overriding *)

Lemma apply_commute (o1 o2 : Option) (h : Handler) :
  field_of o1 <> field_of o2 -> apply o1 (apply o2 h) = apply o2 (apply o1 h).
Proof. destruct o1, o2; simpl; intros Hne; try reflexivity; congruence. Qed.

Lemma apply_override (o1 o2 : Option) (h : Handler) :
  field_of o1 = field_of o2 -> apply o2 (apply o1 h) = apply o2 h.
Proof. destruct o1, o2; simpl; intros He; try reflexivity; discriminate. Qed.

Lemma NewHandler_apply_all (opts1 opts2 : list Option) :
  (forall h, apply_all opts1 h = apply_all opts2 h) ->
  NewHandler defaultLogger defaultClient opts1
  = NewHandler defaultLogger defaultClient opts2.
Proof. intros Heq. unfold NewHandler. simpl. now rewrite Heq. Qed.

(** X3.  Two neighbouring options that assign different fields can be
    swapped, and an option directly followed by one that assigns the same
    field can be dropped: [NewHandler] returns the same handler. *)
Theorem NewHandler_options_reorder (pre post : list Option) (o1 o2 : Option) :
  (field_of o1 <> field_of o2 ->
     NewHandler defaultLogger defaultClient (pre ++ o1 :: o2 :: post)
     = NewHandler defaultLogger defaultClient (pre ++ o2 :: o1 :: post)) /\
  (field_of o1 = field_of o2 ->
     NewHandler defaultLogger defaultClient (pre ++ o1 :: o2 :: post)
     = NewHandler defaultLogger defaultClient (pre ++ o2 :: post)).
Proof.
  split; intros Hf; apply NewHandler_apply_all; intros h; unfold apply_all;
    rewrite !fold_left_app; simpl.
  - now rewrite apply_commute.
  - now rewrite apply_override.
Qed.

(** ** Joining and splitting the payload *)

Lemma Split_app_sep (a b : string) (sep : Ascii.ascii) :
  Split (a +:+ String sep b) sep = Split a sep ++ Split b sep.
Proof.
  induction a as [|x a IH]; simpl.
  - now rewrite Ascii.eqb_refl.
  - rewrite IH. destruct (Ascii.eqb x sep); [reflexivity|].
    pose proof (Split_nonempty a sep). now destruct (Split a sep).
Qed.

Lemma Split_no_sep (u : string) (sep : Ascii.ascii) :
  Count u sep = 0%nat -> Split u sep = [u].
Proof.
  induction u as [|x u IH]; simpl; [reflexivity|].
  destruct (Ascii.eqb x sep); [discriminate|]. intros Hc. now rewrite IH.
Qed.

Lemma Split_pieces (s : string) (sep : Ascii.ascii) :
  Forall (fun u => Count u sep = 0%nat) (Split s sep).
Proof.
  induction s as [|x s IH]; simpl.
  - now repeat constructor.
  - destruct (Ascii.eqb x sep) eqn:Hx.
    + now constructor.
    + destruct (Split s sep) as [|p ps]; [now repeat constructor; simpl; rewrite Hx|].
      inversion IH as [|? ? Hp Hps]; subst. constructor; [|exact Hps].
      simpl. now rewrite Hx.
Qed.

Lemma Join_Split (s : string) :
  Join (Split s LF) (String LF EmptyString) = s.
Proof.
  induction s as [|x s IH]; [reflexivity|]. cbn [Split].
  pose proof (Split_nonempty s LF) as Hne.
  destruct (Ascii.eqb x LF) eqn:Hx.
  - apply Ascii.eqb_eq in Hx. subst x.
    destruct (Split s LF) as [|p ps]; [congruence|].
    change (Join (EmptyString :: p :: ps) (String LF EmptyString))
      with (String LF (Join (p :: ps) (String LF EmptyString))).
    now rewrite IH.
  - destruct (Split s LF) as [|p ps]; [congruence|].
    rewrite <- IH. now destruct ps.
Qed.

Lemma Split_Join (urls : list string) :
  urls <> [] -> Forall (fun u => Count u LF = 0%nat) urls ->
  Split (Join urls (String LF EmptyString)) LF = urls.
Proof.
  induction urls as [|u urls IH]; [congruence|]. intros _ Hall.
  inversion Hall as [|? ? Hu Hrest]; subst.
  destruct urls as [|v urls].
  - now apply Split_no_sep.
  - change (Join (u :: v :: urls) (String LF EmptyString))
      with (u +:+ String LF (Join (v :: urls) (String LF EmptyString))).
    rewrite Split_app_sep, (Split_no_sep u LF Hu), IH by (congruence || assumption).
    reflexivity.
Qed.

(** X4.  The payload and the URL list determine each other.  Joining the
    pieces of any payload with line feeds gives the payload back, and no
    piece holds a line feed; splitting the buffer that
    [getRequestBodyBuffer] builds from a non-empty list of URLs without
    line feeds gives that list back.  From no URL at all the buffer is
    empty and splits into the one empty URL. *)
Theorem payload_round_trip :
  (forall data, Join (Split data LF) (String LF EmptyString) = data
                /\ Forall (fun u => Count u LF = 0%nat) (Split data LF)) /\
  (forall urls, urls <> [] -> Forall (fun u => Count u LF = 0%nat) urls ->
     Split (rd_data (getRequestBodyBuffer urls)) LF = urls) /\
  Split (rd_data (getRequestBodyBuffer [])) LF = [EmptyString].
Proof.
  split; [|split].
  - intros data. split; [apply Join_Split|apply Split_pieces].
  - intros urls Hne Hall. now apply Split_Join.
  - reflexivity.
Qed.

(** ** The inbound operation: entering and leaving *)

Lemma semaphore_ext (a b : semaphore) :
  capacity a = capacity b -> in_use a = in_use b -> a = b.
Proof.
  destruct a as [[ca la]], b as [[cb lb]]. unfold capacity, in_use. simpl.
  now intros -> ->.
Qed.

Lemma ServeHTTP_same_handler (h : Handler) (writer : ResponseWriter)
    (request : Request) (sched : list Action) (o : Outcome) :
  ServeHTTP h writer request sched = Some o -> o_handler o = h.
Proof.
  destruct (String.eqb (Method request) "POST") eqn:Hm.
  - destruct (Z.lt_ge_cases (in_use (sem h)) (capacity (sem h))) as [Hfree|Hfull].
    + destruct (ServeHTTP_admitted h writer request sched Hm Hfree)
        as (s1 & Ha & Hl & Hc & ->).
      destruct (guarded (set_sem s1 h) writer request sched) as [[w' eng]|];
        [|discriminate].
      destruct (release s1) as [s2|] eqn:Hr; [|discriminate].
      intros [= <-]. simpl. apply release_inv in Hr.
      rewrite (semaphore_ext s2 (sem h)) by lia. apply set_sem_same.
    + rewrite (ServeHTTP_rejected h writer request sched Hm Hfull).
      now intros [= <-].
  - rewrite (ServeHTTP_other_method h writer request sched Hm).
    now intros [= <-].
Qed.

(** X5.  Every call of [ServeHTTP] that returns leaves the handler as it
    found it: client, logger and limit are never assigned, and the gate
    is back at the state it had, so a request that follows is served as
    if it were the first. *)
Theorem ServeHTTP_handler_unchanged (h : Handler) (writer writer' : ResponseWriter)
    (request request' : Request) (sched sched' : list Action) (o : Outcome) :
  ServeHTTP h writer request sched = Some o ->
  o_handler o = h /\
  ServeHTTP (o_handler o) writer' request' sched'
  = ServeHTTP h writer' request' sched'.
Proof.
  intros Ho. apply ServeHTTP_same_handler in Ho. now rewrite Ho.
Qed.

Lemma ServeHTTP_post_status (h : Handler) (writer : ResponseWriter)
    (request : Request) (sched : list Action) (o : Outcome) :
  String.eqb (Method request) "POST" = true ->
  w_status writer = None ->
  ServeHTTP h writer request sched = Some o ->
  (status (o_writer o) = StatusServiceUnavailable
   /\ capacity (sem h) <= in_use (sem h)) \/
  (status (o_writer o) = StatusBadRequest
   /\ in_use (sem h) < capacity (sem h) /\ rd_err (req_Body request) <> None) \/
  (status (o_writer o) = StatusOK
   /\ in_use (sem h) < capacity (sem h) /\ rd_err (req_Body request) = None).
Proof.
  intros Hm Hw.
  destruct (Z.lt_ge_cases (in_use (sem h)) (capacity (sem h))) as [Hfree|Hfull].
  - destruct (ServeHTTP_admitted h writer request sched Hm Hfree)
      as (s1 & Ha & Hl & Hc & ->).
    unfold guarded, ReadAll.
    destruct (rd_err (req_Body request)) as [e|] eqn:Herr.
    + destruct (release s1); [|discriminate]. intros [= <-]. simpl.
      right. left. repeat split; auto. now apply Error_status.
    + destruct (run (set_sem s1 h) sched _) as [e|]; [|discriminate].
      destruct (loop_ended e); [|discriminate].
      destruct (release s1); [|discriminate]. intros [= <-]. simpl.
      right. right. repeat split; auto. apply write_sizes_status. now left.
  - rewrite (ServeHTTP_rejected h writer request sched Hm Hfull).
    intros [= <-]. simpl. left. split; auto. now apply Error_status.
Qed.

(** X6.  The method check comes first.  A request whose method is not
    exactly ["POST"] is answered method-not-allowed whatever the gate
    and the payload are: one line, no gate call, no fetch.  And no POST
    is ever answered method-not-allowed. *)
Theorem ServeHTTP_method_check (h : Handler) (writer : ResponseWriter)
    (request : Request) (sched : list Action) :
  w_status writer = None ->
  (Method request <> "POST" ->
     exists o, ServeHTTP h writer request sched = Some o /\
       status (o_writer o) = StatusMethodNotAllowed /\
       w_body (o_writer o)
       = w_body writer ++ ["Method Not Allowed" +:+ String LF EmptyString] /\
       o_gate o = [] /\ o_engine o = None /\ o_handler o = h) /\
  (forall o, ServeHTTP h writer request sched = Some o ->
     (status (o_writer o) = StatusMethodNotAllowed <-> Method request <> "POST")).
Proof.
  intros Hw. split.
  - intros Hne. apply String.eqb_neq in Hne.
    rewrite (ServeHTTP_other_method h writer request sched Hne).
    eexists. split; [reflexivity|]. simpl.
    split; [now apply Error_status|]. split; [|now repeat split].
    unfold Error, Fprintln, Write, WriteHeader. simpl. now rewrite Hw.
  - intros o Ho. destruct (String.eqb (Method request) "POST") eqn:Hm.
    + destruct (ServeHTTP_post_status h writer request sched o Hm Hw Ho)
        as [(Hst & _) | [(Hst & _) | (Hst & _)]]; rewrite Hst;
        apply String.eqb_eq in Hm; split; (discriminate || congruence).
    + rewrite (ServeHTTP_other_method h writer request sched Hm) in Ho.
      injection Ho as <-. simpl. apply String.eqb_neq in Hm.
      split; [auto|]. intros _. now apply Error_status.
Qed.

Lemma enter_post (h : Handler) (request : Request) :
  Method request = "POST" ->
  enter h request =
  (if fst (acquire (sem h)) then Entered else Unavailable,
   set_sem (snd (acquire (sem h))) h).
Proof.
  intros Hm. unfold enter. rewrite Hm. simpl.
  now destruct (acquire (sem h)) as [[|] s1].
Qed.

Lemma arrive_posts (K : Z) (requests : list Request) :
  Forall (fun r => Method r = "POST") requests ->
  forall h : Handler, gate_ok K (sem h) ->
    fst (arrive h requests)
    = replicate (length requests `min` Z.to_nat (K - in_use (sem h))) Entered
      ++ replicate (length requests - Z.to_nat (K - in_use (sem h))) Unavailable
    /\ in_use (sem (snd (arrive h requests)))
       = in_use (sem h)
         + Z.of_nat (length requests `min` Z.to_nat (K - in_use (sem h)))
    /\ capacity (sem (snd (arrive h requests))) = K.
Proof.
  induction 1 as [|request requests Hm _ IH]; intros h Hok.
  - simpl. destruct Hok. repeat split; auto. lia.
  - cbn [arrive length]. rewrite (enter_post h request Hm).
    pose proof (acquire_ok K _ Hok) as Hok'. destruct Hok as [Hc Hb].
    destruct (Z.lt_ge_cases (in_use (sem h)) (capacity (sem h))) as [Hlt|Hge].
    + destruct (acquire_free _ Hlt) as (s1 & Ha & Hl & Hc1).
      rewrite Ha in Hok' |- *. simpl in Hok' |- *.
      specialize (IH (set_sem s1 h) Hok'). simpl in IH.
      destruct (arrive (set_sem s1 h) requests) as [rest h'']. simpl in IH |- *.
      destruct IH as (Hrest & Hin & Hcap). rewrite Hrest, Hin, Hl.
      replace (Z.to_nat (K - in_use (sem h)))
        with (S (Z.to_nat (K - (in_use (sem h) + 1)))) by lia.
      repeat split; auto. simpl. lia.
    + rewrite (acquire_full _ Hge). simpl. rewrite set_sem_same.
      specialize (IH h (conj Hc Hb)).
      destruct (arrive h requests) as [rest h'']. simpl in IH |- *.
      destruct IH as (Hrest & Hin & Hcap). rewrite Hrest, Hin.
      replace (Z.to_nat (K - in_use (sem h))) with 0%nat by lia.
      rewrite !Nat.min_0_r, !Nat.sub_0_r. now repeat split.
Qed.

Lemma ServeHTTP_enters (h : Handler) (writer : ResponseWriter)
    (request : Request) (sched : list Action) (o : Outcome) :
  ServeHTTP h writer request sched = Some o ->
  o_gate o = gate_calls (fst (enter h request)).
Proof.
  unfold ServeHTTP, enter.
  destruct (negb (String.eqb (Method request) "POST")); [now intros [= <-]|].
  destruct (acquire (sem h)) as [[|] s1]; simpl; [|now intros [= <-]].
  destruct (guarded (set_sem s1 h) writer request sched) as [[w' eng]|];
    [|discriminate].
  destruct (release s1); [|discriminate]. now intros [= <-].
Qed.

(** X7.  Admission under load.  When [m] POST requests enter a handler
    whose gate of capacity [K] has [n] slots taken, and none of them
    returns meanwhile, the first [K - n] are admitted and all later ones
    are refused; the gate then holds [n] plus the number admitted.
    Entering is what [ServeHTTP] does first: the gate calls of a call
    that returns are those of the way the request entered. *)
Theorem arrive_admits_free_slots (K : Z) (h : Handler) (requests : list Request) :
  gate_ok K (sem h) ->
  Forall (fun r => Method r = "POST") requests ->
  fst (arrive h requests)
  = replicate (length requests `min` Z.to_nat (K - in_use (sem h))) Entered
    ++ replicate (length requests - Z.to_nat (K - in_use (sem h))) Unavailable
  /\ in_use (sem (snd (arrive h requests)))
     = in_use (sem h)
       + Z.of_nat (length requests `min` Z.to_nat (K - in_use (sem h)))
  /\ capacity (sem (snd (arrive h requests))) = K
  /\ (forall (h' : Handler) writer request sched o,
        ServeHTTP h' writer request sched = Some o ->
        o_gate o = gate_calls (fst (enter h' request))).
Proof.
  intros Hok Hall. destruct (arrive_posts K requests Hall h Hok) as (? & ? & ?).
  repeat split; auto. intros h' writer request sched o. apply ServeHTTP_enters.
Qed.

(** ** The engine at every moment of every run *)

Section EngineMore.

Variable h : Handler.
Variable c : Client.
Variable l : Logger.
Hypothesis Hclient : client h = Some c.
Hypothesis Hlogger : logger h = Some l.

Lemma live_count (ts : list Task) :
  sum_list_with live ts
  = length (List.filter (fun t => negb (task_done t)) ts).
Proof.
  induction ts as [|t ts IH]; simpl; [reflexivity|].
  unfold live at 1. destruct (task_done t); simpl; now rewrite IH.
Qed.

Lemma emitted_sub (ts : list Task) :
  flat_map (emitted_by c) ts ⊆+ successes c (t_url <$> ts).
Proof.
  unfold successes. induction ts as [|t ts IH]; simpl; [reflexivity|].
  apply submseteq_app; [|exact IH]. unfold emitted_by.
  destruct (task_done t); [reflexivity|apply submseteq_nil_l].
Qed.

Lemma logged_sub (ts : list Task) :
  flat_map (logged_by c l) ts ⊆+ (fun e => (l, e)) <$> failures c (t_url <$> ts).
Proof.
  unfold failures. induction ts as [|t ts IH]; simpl; [reflexivity|].
  rewrite fmap_app. apply submseteq_app; [|exact IH]. unfold logged_by.
  destruct (task_done t); [reflexivity|apply submseteq_nil_l].
Qed.

(** X8.  At every moment of every run of the engine, whether or not the
    caller keeps receiving: the wait-group counter is the number of
    started tasks that have not returned, so it is never negative; no
    more tasks are started than there are URLs; the channel is closed
    exactly when the outer goroutine has returned, and then no task is
    left that could send on it; the values received so far are among the
    sizes of the fetchable URLs and the lines logged so far among the
    errors of the others, none more often than its URLs occur. *)
Theorem fetch_safe_at_every_step (urls : list string) (sched : list Action)
    (s : Engine) :
  run h sched (fetch urls) = Some s ->
  wg s = Z.of_nat (length (List.filter (fun t => negb (task_done t)) (tasks s))) /\
  0 <= wg s <= Z.of_nat (length urls) /\
  (length (tasks s) <= length urls)%nat /\
  (closed s = true <-> spawner s = SExit) /\
  (closed s = true -> forallb task_done (tasks s) = true) /\
  received s ⊆+ successes c urls /\
  logged s ⊆+ ((fun e => (l, e)) <$> failures c urls).
Proof.
  intros Hrun.
  pose proof (inv_run h c l Hclient Hlogger urls sched _ _ (inv_fetch c l urls) Hrun)
    as HI.
  pose proof (inv_wg _ _ _ _ HI) as Hwg. rewrite live_count in Hwg.
  pose proof (inv_urls _ _ _ _ HI) as Hu.
  pose proof (inv_spawner _ _ _ _ HI) as Hsp.
  assert (Hlen : (length (tasks s) <= length urls)%nat).
  { rewrite <- Hu, length_app, length_fmap. lia. }
  pose proof (filter_length_le (fun t => negb (task_done t)) (tasks s)) as Hfl.
  split; [exact Hwg|]. split; [lia|]. split; [exact Hlen|]. split; [|split; [|split]].
  - destruct (spawner s); split; intros Hx;
      first [congruence | destruct Hsp; congruence].
  - intros Hcl. now destruct (closed_all_done c l urls s HI Hcl) as (_ & _ & ?).
  - rewrite (inv_received _ _ _ _ HI). etransitivity; [apply emitted_sub|].
    rewrite <- Hu. unfold successes. rewrite flat_map_app.
    apply submseteq_inserts_r. reflexivity.
  - rewrite (inv_logged _ _ _ _ HI). etransitivity; [apply logged_sub|].
    rewrite <- Hu. unfold failures. rewrite flat_map_app, fmap_app.
    apply submseteq_inserts_r. reflexivity.
Qed.

(** ** The engine: the order of the values is the scheduler's choice *)

(** Closes a conjunction whose parts are at hand. *)
Local Ltac conjuncts :=
  repeat (split; [first [reflexivity | assumption | congruence]|]);
  first [reflexivity | assumption | congruence].

Lemma run_app (sched1 sched2 : list Action) :
  forall s, run h (sched1 ++ sched2) s
            = match run h sched1 s with
              | Some s1 => run h sched2 s1
              | None => None
              end.
Proof.
  induction sched1 as [|a sched1 IH]; intros s; simpl; [reflexivity|].
  destruct (step h a s); [apply IH|reflexivity].
Qed.

Lemma drains_app (sched1 sched2 : list Action) :
  drains (sched1 ++ sched2) = drains sched1 && drains sched2.
Proof. apply forallb_app. Qed.

Lemma unsettled_task (ts : list Task) :
  Forall (task_ok c) ts ->
  Forall (settled c) ts \/
  exists i t, ts !! i = Some t /\ task_done t = false /\ blocked_at_send t = false.
Proof.
  induction 1 as [|t ts Hok _ IH]; [left; constructor|].
  destruct (task_done t) eqn:Hd.
  - destruct IH as [Hall|(i & t' & Hi & Hd' & Hb)].
    + left. constructor; [now left|exact Hall].
    + right. now exists (S i), t'.
  - destruct (blocked_at_send t) eqn:Hb.
    + destruct IH as [Hall|(i & t' & Hi & Hd' & Hb')].
      * left. constructor; [|exact Hall]. right.
        unfold blocked_at_send in Hb. unfold task_ok in Hok.
        destruct (t_pc t) as [|resp|n|]; try discriminate. now exists n.
      * right. now exists (S i), t'.
    + right. now exists 0%nat, t.
Qed.

Lemma step_before_send (s s1 : Engine) (i : nat) (t : Task) :
  tasks s !! i = Some t -> blocked_at_send t = false ->
  step h (ATask i) s = Some s1 ->
  reader s1 = reader s /\ spawner s1 = spawner s /\ received s1 = received s.
Proof.
  intros Hi Hb. simpl. unfold step_task, fail_task. rewrite Hi, Hlogger, Hclient.
  unfold blocked_at_send in Hb. destruct (t_pc t) as [|resp|n|]; try discriminate.
  - destruct (Get c (t_url t)); now intros [= <-].
  - destruct (ReadAll (Body resp)) as [content [e|]]; now intros [= <-].
Qed.

(** Every task can be brought to its send, or to its end if its fetch
    fails, before any value is handed over. *)
Lemma advance_all (urls : list string) (n : nat) :
  forall s, (fuel s <= n)%nat -> Inv c l urls s -> reader s = RRange ->
    (exists rest, spawner s = SLoop rest) ->
    exists sched s', drains sched = true /\ run h sched s = Some s' /\
      Inv c l urls s' /\ reader s' = RRange /\ spawner s' = SLoop [] /\
      received s' = received s /\ Forall (settled c) (tasks s').
Proof.
  induction n as [|n IH]; intros s Hf HI Hr [rest Hsp].
  - unfold fuel in Hf. rewrite Hsp in Hf. simpl in Hf. lia.
  - destruct rest as [|url rest].
    + destruct (unsettled_task (tasks s) (inv_tasks _ _ _ _ HI))
        as [Hall|(i & t & Hi & Hd & Hb)].
      * exists [], s. conjuncts.
      * destruct (live_task_steps h c l Hclient Hlogger urls s i t HI Hi Hd)
          as [s1 Hst]; [now right|].
        destruct (step_before_send s s1 i t Hi Hb Hst) as (Hr1 & Hsp1 & Hrc1).
        pose proof (step_fuel h c l Hclient Hlogger _ _ _ Hst) as Hlt.
        destruct (IH s1) as (sched & s' & Hd' & Hrun & HI' & Hr' & Hsp' & Hrc' & Hset).
        -- lia.
        -- eapply inv_step; eauto.
        -- congruence.
        -- exists []. congruence.
        -- exists (ATask i :: sched), s'. cbn [run drains forallb]. rewrite Hst.
           change (forallb _ sched) with (drains sched). conjuncts.
    + assert (Hst : step h ASpawner s = Some (spawn url rest s)).
      { simpl. unfold step_spawner. now rewrite Hsp. }
      pose proof (step_fuel h c l Hclient Hlogger _ _ _ Hst) as Hlt.
      destruct (IH (spawn url rest s))
        as (sched & s' & Hd' & Hrun & HI' & Hr' & Hsp' & Hrc' & Hset).
      * lia.
      * eapply inv_step; eauto.
      * exact Hr.
      * now exists rest.
      * exists (ASpawner :: sched), s'. cbn [run drains forallb]. rewrite Hst.
        change (forallb _ sched) with (drains sched). conjuncts.
Qed.

Lemma settled_pending (ts : list Task) :
  Forall (settled c) ts ->
  flat_map (emitted_by c) ts ++ flat_map pending ts ≡ₚ successes c (t_url <$> ts).
Proof.
  unfold successes. induction 1 as [|t ts Ht _ IH]; simpl; [reflexivity|].
  rewrite <- IH. unfold emitted_by at 1, pending at 1.
  destruct Ht as [Hd|(n & Hpc & Hfs)].
  - rewrite Hd. unfold task_done in Hd.
    destruct (t_pc t); try discriminate. simpl.
    rewrite <- !app_assoc. reflexivity.
  - unfold task_done, size_of. rewrite Hpc, Hfs. simpl.
    symmetry. apply Permutation_middle.
Qed.

Lemma settled_none_pending (ts : list Task) :
  Forall (settled c) ts -> flat_map pending ts = [] ->
  forallb task_done ts = true.
Proof.
  induction 1 as [|t ts Ht _ IH]; simpl; [reflexivity|].
  intros Hnil. apply app_eq_nil in Hnil. destruct Hnil as [Hp Hps].
  rewrite (IH Hps), andb_true_r. destruct Ht as [Hd|(n & Hpc & _)]; [exact Hd|].
  unfold pending in Hp. rewrite Hpc in Hp. discriminate.
Qed.

(** The waiting values can be handed over in any order. *)
Lemma emit_in_order (urls : list string) (out : list Z) :
  forall s, Inv c l urls s -> reader s = RRange -> spawner s = SLoop [] ->
    Forall (settled c) (tasks s) -> out ≡ₚ flat_map pending (tasks s) ->
    exists sched s', drains sched = true /\ run h sched s = Some s' /\
      Inv c l urls s' /\ reader s' = RRange /\ spawner s' = SLoop [] /\
      received s' = received s ++ out /\ forallb task_done (tasks s') = true.
Proof.
  induction out as [|x out IH]; intros s HI Hr Hsp Hset Hperm.
  - apply Permutation_nil in Hperm.
    pose proof (settled_none_pending _ Hset Hperm) as Hdone.
    exists [], s. rewrite app_nil_r. conjuncts.
  - assert (Hin : In x (flat_map pending (tasks s))).
    { eapply Permutation_in; [exact Hperm|now left]. }
    apply in_flat_map in Hin. destruct Hin as (t & Ht & Hx).
    apply list_elem_of_In, list_elem_of_lookup in Ht. destruct Ht as [i Hi].
    assert (Hpc : t_pc t = TSend x).
    { unfold pending in Hx. destruct (t_pc t); simpl in Hx; try tauto.
      destruct Hx as [->|[]]. reflexivity. }
    pose proof (inv_spawner _ _ _ _ HI) as Hcl. rewrite Hsp in Hcl.
    assert (Hst : step h (ATask i) s = Some (emit_task i (t_url t) x s)).
    { simpl. unfold step_task. now rewrite Hi, Hpc, Hr, Hcl. }
    destruct (insert_split (tasks s) i t (done_task (t_url t)) Hi)
      as (l1 & l2 & Hts & Hts').
    destruct (IH (emit_task i (t_url t) x s))
      as (sched & s' & Hd' & Hrun & HI' & Hr' & Hsp' & Hrc' & Hdone).
    + eapply inv_step; eauto.
    + exact Hr.
    + exact Hsp.
    + simpl. apply Forall_insert; [exact Hset|now left].
    + simpl. fold (done_task (t_url t)). rewrite Hts'.
      rewrite Hts in Hperm. rewrite flat_map_app in Hperm |- *.
      simpl in Hperm |- *. unfold pending at 2 in Hperm. rewrite Hpc in Hperm.
      simpl in Hperm. now apply Permutation_cons_app_inv in Hperm.
    + exists (ATask i :: sched), s'. cbn [run drains forallb]. rewrite Hst.
      change (forallb _ sched) with (drains sched).
      assert (Hrc : received s' = received s ++ x :: out)
        by (rewrite Hrc'; simpl; now rewrite <- app_assoc).
      conjuncts.
Qed.

Lemma finish_run (urls : list string) (s : Engine) :
  Inv c l urls s -> reader s = RRange -> spawner s = SLoop [] ->
  forallb task_done (tasks s) = true ->
  exists s', run h [ASpawner; ASpawner; AReader] s = Some s' /\
    finished s' = true /\ received s' = received s.
Proof.
  intros HI Hr Hsp Hdone.
  pose proof (inv_wg _ _ _ _ HI) as Hwg. rewrite (done_none_live _ Hdone) in Hwg.
  simpl. unfold step_spawner. rewrite Hsp, Hwg. simpl.
  unfold step_reader. simpl. rewrite Hr. simpl.
  eexists. split; [reflexivity|]. unfold finished. simpl. auto.
Qed.

(** X9.  The order of the output is the scheduler's choice and nothing
    else: for every arrangement of the sizes of the fetchable URLs there
    is an interleaving, with a caller that receives to the end, whose
    finished run hands the sizes over in exactly that arrangement. *)
Theorem fetch_any_order (urls : list string) (out : list Z) :
  out ≡ₚ successes c urls ->
  exists sched s, drains sched = true /\ run h sched (fetch urls) = Some s /\
    finished s = true /\ received s = out.
Proof.
  intros Hout.
  destruct (advance_all urls (fuel (fetch urls)) (fetch urls))
    as (sched1 & s1 & Hd1 & Hrun1 & HI1 & Hr1 & Hsp1 & Hrc1 & Hset1);
    [lia|apply inv_fetch|reflexivity|now exists urls|].
  simpl in Hrc1.
  assert (Hpend : out ≡ₚ flat_map pending (tasks s1)).
  { pose proof (settled_pending (tasks s1) Hset1) as Hsp.
    pose proof (inv_received _ _ _ _ HI1) as Hrc. rewrite Hrc1 in Hrc.
    apply Permutation_nil in Hrc. rewrite Hrc in Hsp. simpl in Hsp.
    pose proof (inv_urls _ _ _ _ HI1) as Hu. rewrite Hsp1 in Hu. simpl in Hu.
    rewrite app_nil_r in Hu. rewrite Hu in Hsp. now rewrite Hsp. }
  destruct (emit_in_order urls out s1 HI1 Hr1 Hsp1 Hset1 Hpend)
    as (sched2 & s2 & Hd2 & Hrun2 & HI2 & Hr2 & Hsp2 & Hrc2 & Hdone2).
  destruct (finish_run urls s2 HI2 Hr2 Hsp2 Hdone2) as (s3 & Hrun3 & Hfin & Hrc3).
  exists (sched1 ++ sched2 ++ [ASpawner; ASpawner; AReader]), s3.
  rewrite !drains_app, Hd1, Hd2, run_app, Hrun1, run_app, Hrun2, Hrun3.
  repeat split; auto. now rewrite Hrc3, Hrc2, Hrc1.
Qed.

End EngineMore.

(** ** The response *)

Lemma write_sizes_header (sizes : list Z) :
  forall w, w_header (write_sizes sizes w) = w_header w.
Proof.
  unfold write_sizes. induction sizes as [|n sizes IH]; intros w; simpl;
    [reflexivity|].
  rewrite IH. unfold Fprintln, Write, WriteHeader. now destruct (w_status w).
Qed.

Lemma write_sizes_w_status (sizes : list Z) :
  forall w, w_status (write_sizes sizes w)
            = match sizes with
              | [] => w_status w
              | _ :: _ => Some (default StatusOK (w_status w))
              end.
Proof.
  unfold write_sizes. induction sizes as [|n sizes IH]; intros w; simpl;
    [reflexivity|].
  rewrite IH.
  assert (Hst : w_status (Fprintln (pretty n) w) = Some (default StatusOK (w_status w))).
  { unfold Fprintln, Write, WriteHeader.
    destruct (w_status w) eqn:Hws; simpl; now rewrite ?Hws. }
  rewrite Hst. now destruct sizes.
Qed.

Lemma done_tasks (ts : list Task) :
  forallb task_done ts = true -> ts = done_task <$> (t_url <$> ts).
Proof.
  induction ts as [|[u pc] ts IH]; simpl; [reflexivity|].
  intros [Hd Hds]%andb_prop. f_equal; [|now apply IH].
  unfold task_done in Hd. simpl in Hd. now destruct pc.
Qed.

Lemma Count_pretty_N_go (x : N) :
  forall s, Count (pretty_N_go x s) LF = Count s LF.
Proof.
  induction (N.lt_wf_0 x) as [x _ IH]; intros s.
  destruct (N.eq_0_gt_0_cases x) as [->|Hpos]; [now rewrite pretty_N_go_0|].
  rewrite pretty_N_go_step by exact Hpos.
  rewrite IH by (apply N.div_lt; [exact Hpos|reflexivity]).
  cbn [Count]. replace (Ascii.eqb (pretty_N_char (x `mod` 10)%N) LF) with false;
    [reflexivity|].
  unfold pretty_N_char. repeat case_match; reflexivity.
Qed.

Lemma Count_pretty (n : Z) : Count (pretty n) LF = 0%nat.
Proof.
  assert (HN : forall x : N, Count (pretty x) LF = 0%nat).
  { intros x. unfold pretty, pretty_N. case_decide; [reflexivity|].
    now rewrite Count_pretty_N_go. }
  destruct n as [|p|p]; [reflexivity|apply (HN (Npos p))|].
  unfold pretty, pretty_Z. simpl. apply (HN (Npos p)).
Qed.

Lemma append_assoc (a b d : string) : (a +:+ b) +:+ d = a +:+ (b +:+ d).
Proof.
  induction a as [|x a IH]; [reflexivity|].
  change (String x ((a +:+ b) +:+ d) = String x (a +:+ (b +:+ d))).
  now rewrite IH.
Qed.

Lemma Split_lines (sizes : list Z) :
  Split (fold_right String.append EmptyString (size_line <$> sizes)) LF
  = (pretty <$> sizes) ++ [EmptyString].
Proof.
  induction sizes as [|n sizes IH]; [reflexivity|].
  cbn [fmap list_fmap fold_right app]. unfold size_line at 1.
  rewrite append_assoc.
  change (String LF EmptyString +:+ ?rest) with (String LF rest).
  rewrite Split_app_sep, (Split_no_sep _ _ (Count_pretty n)).
  simpl. f_equal. exact IH.
Qed.

Lemma successes_nonneg (c : Client) (urls : list string) :
  Forall (fun n => 0 <= n) (successes c urls).
Proof.
  unfold successes. induction urls as [|u urls IH]; simpl; [constructor|].
  apply Forall_app. split; [|exact IH]. unfold size_of, fetch_size.
  destruct (Get c u) as [resp|e]; [|constructor].
  destruct (ReadAll (Body resp)) as [content [e|]]; repeat constructor.
  unfold len. lia.
Qed.

Section ServeMore.

Variable h : Handler.
Variable c : Client.
Variable l : Logger.
Hypothesis Hclient : client h = Some c.
Hypothesis Hlogger : logger h = Some l.

(** What an admitted POST with a readable payload leaves behind. *)
Lemma ServeHTTP_readable (writer : ResponseWriter) (request : Request)
    (sched : list Action) (o : Outcome) :
  String.eqb (Method request) "POST" = true ->
  in_use (sem h) < capacity (sem h) ->
  rd_err (req_Body request) = None ->
  ServeHTTP h writer request sched = Some o ->
  exists e, o_engine o = Some e /\
    o_writer o = write_sizes (received e) (with_content_type writer) /\
    o_gate o = [CallAcquire true; CallRelease] /\
    reader e = RExit /\
    Inv c l (Split (rd_data (req_Body request)) LF) e.
Proof.
  intros Hm Hfree Herr.
  destruct (ServeHTTP_admitted h writer request sched Hm Hfree)
    as (s1 & Ha & _ & _ & ->).
  destruct (guarded (set_sem s1 h) writer request sched) as [[w' eng]|] eqn:Hg;
    [|discriminate].
  destruct (release s1) as [s2|]; [|discriminate]. intros [= <-]. simpl.
  destruct (guarded_readable h c l Hclient Hlogger s1 writer request Herr)
    as [_ Hall].
  destruct (Hall sched w' eng Hg) as (e & -> & Hrun & Hrd & ->).
  exists e. do 4 (split; [first [reflexivity | assumption]|]).
  apply (inv_run h c l Hclient Hlogger _ sched _ _ (inv_fetch c l _) Hrun).
Qed.

Lemma ServeHTTP_unreadable_any_sched (writer : ResponseWriter) (request : Request)
    (sched1 sched2 : list Action) :
  (String.eqb (Method request) "POST" = false
   \/ capacity (sem h) <= in_use (sem h)
   \/ rd_err (req_Body request) <> None) ->
  ServeHTTP h writer request sched1 = ServeHTTP h writer request sched2.
Proof.
  intros Hcase. destruct (String.eqb (Method request) "POST") eqn:Hm.
  - destruct (Z.lt_ge_cases (in_use (sem h)) (capacity (sem h))) as [Hfree|Hfull].
    + destruct Hcase as [?|[?|Herr]]; [discriminate|lia|].
      destruct (ServeHTTP_admitted h writer request sched1 Hm Hfree)
        as (s1 & Ha & _ & _ & ->).
      destruct (ServeHTTP_admitted h writer request sched2 Hm Hfree)
        as (s1' & Ha' & _ & _ & ->).
      rewrite Ha in Ha'. injection Ha' as <-.
      unfold guarded, ReadAll. now destruct (rd_err (req_Body request)).
    + now rewrite !(ServeHTTP_rejected h writer _ _ Hm Hfull).
  - now rewrite !(ServeHTTP_other_method h writer _ _ Hm).
Qed.

(** X10.  The interleaving decides the order of the lines and nothing
    else.  Two returns of [ServeHTTP] for the same handler, writer and
    request agree on the handler left behind, the gate calls, the status
    and the headers; their bodies hold the same chunks, and their engines
    the same tasks, the same received values and the same logged lines,
    up to order. *)
Theorem ServeHTTP_schedule_independent (writer : ResponseWriter) (request : Request)
    (sched1 sched2 : list Action) (o1 o2 : Outcome) :
  ServeHTTP h writer request sched1 = Some o1 ->
  ServeHTTP h writer request sched2 = Some o2 ->
  o_handler o1 = o_handler o2 /\ o_gate o1 = o_gate o2 /\
  w_status (o_writer o1) = w_status (o_writer o2) /\
  w_header (o_writer o1) = w_header (o_writer o2) /\
  w_body (o_writer o1) ≡ₚ w_body (o_writer o2) /\
  (o_engine o1 = None <-> o_engine o2 = None) /\
  (forall e1 e2, o_engine o1 = Some e1 -> o_engine o2 = Some e2 ->
     tasks e1 = tasks e2 /\ received e1 ≡ₚ received e2 /\ logged e1 ≡ₚ logged e2).
Proof.
  intros Ho1 Ho2.
  assert (Hsame : o1 = o2 -> o_handler o1 = o_handler o2 /\ o_gate o1 = o_gate o2 /\
    w_status (o_writer o1) = w_status (o_writer o2) /\
    w_header (o_writer o1) = w_header (o_writer o2) /\
    w_body (o_writer o1) ≡ₚ w_body (o_writer o2) /\
    (o_engine o1 = None <-> o_engine o2 = None) /\
    (forall e1 e2, o_engine o1 = Some e1 -> o_engine o2 = Some e2 ->
       tasks e1 = tasks e2 /\ received e1 ≡ₚ received e2 /\ logged e1 ≡ₚ logged e2)).
  { intros <-. do 6 (split; [reflexivity|]). intros e1 e2 He1 He2.
    rewrite He1 in He2. injection He2 as <-. now repeat split. }
  destruct (String.eqb (Method request) "POST") eqn:Hm;
    [|apply Hsame;
      rewrite (ServeHTTP_unreadable_any_sched writer request sched1 sched2) in Ho1
        by (now left); congruence].
  destruct (Z.lt_ge_cases (in_use (sem h)) (capacity (sem h))) as [Hfree|Hfull];
    [|apply Hsame;
      rewrite (ServeHTTP_unreadable_any_sched writer request sched1 sched2) in Ho1
        by (right; now left); congruence].
  destruct (rd_err (req_Body request)) as [err|] eqn:Herr;
    [apply Hsame;
     rewrite (ServeHTTP_unreadable_any_sched writer request sched1 sched2) in Ho1
       by (right; right; congruence); congruence|].
  clear Hsame.
  destruct (ServeHTTP_readable writer request sched1 o1 Hm Hfree Herr Ho1)
    as (e1 & He1 & Hw1 & Hg1 & Hrd1 & HI1).
  destruct (ServeHTTP_readable writer request sched2 o2 Hm Hfree Herr Ho2)
    as (e2 & He2 & Hw2 & Hg2 & Hrd2 & HI2).
  destruct (finished_result c l _ e1 HI1 Hrd1) as (Hcl1 & _ & Hu1 & Hrec1 & Hlog1).
  destruct (finished_result c l _ e2 HI2 Hrd2) as (Hcl2 & _ & Hu2 & Hrec2 & Hlog2).
  destruct (closed_all_done c l _ e1 HI1 Hcl1) as (_ & _ & Hd1).
  destruct (closed_all_done c l _ e2 HI2 Hcl2) as (_ & _ & Hd2).
  assert (Hrec : received e1 ≡ₚ received e2) by now rewrite Hrec1, Hrec2.
  rewrite (ServeHTTP_same_handler _ _ _ _ _ Ho1), (ServeHTTP_same_handler _ _ _ _ _ Ho2).
  rewrite Hg1, Hg2, Hw1, Hw2, He1, He2, !write_sizes_header, !write_sizes_body,
    !write_sizes_w_status.
  split; [reflexivity|]. split; [reflexivity|]. split.
  { apply Permutation_length in Hrec.
    destruct (received e1), (received e2); simpl in Hrec; congruence. }
  split; [reflexivity|]. split; [now rewrite Hrec|]. split; [split; discriminate|].
  intros e1' e2' [= <-] [= <-]. split; [|split].
  - rewrite (done_tasks _ Hd1), (done_tasks _ Hd2). congruence.
  - exact Hrec.
  - now rewrite Hlog1, Hlog2.
Qed.

(** X11.  What [getRequestBodyBuffer] sends is what is fetched.  A POST
    whose body is the buffer built from a non-empty list of URLs without
    line feeds, met by a free slot: whenever the call returns, the answer
    is success, the engine has run one task per URL of the list, in list
    order, each to its end, and the body has grown by the size lines of
    the fetchable URLs, in some order. *)
Theorem ServeHTTP_serves_joined_urls (writer : ResponseWriter) (request : Request)
    (urls : list string) (sched : list Action) (o : Outcome) :
  Method request = "POST" ->
  req_Body request = getRequestBodyBuffer urls ->
  urls <> [] ->
  Forall (fun u => Count u LF = 0%nat) urls ->
  in_use (sem h) < capacity (sem h) ->
  w_status writer = None ->
  ServeHTTP h writer request sched = Some o ->
  status (o_writer o) = StatusOK /\
  w_body (o_writer o) ≡ₚ w_body writer ++ (size_line <$> successes c urls) /\
  exists e, o_engine o = Some e /\ tasks e = done_task <$> urls /\
    logged e ≡ₚ ((fun err => (l, err)) <$> failures c urls).
Proof.
  intros Hpost Hbody Hne Hclean Hfree Hw Ho.
  assert (Hm : String.eqb (Method request) "POST" = true) by now rewrite Hpost.
  assert (Herr : rd_err (req_Body request) = None) by now rewrite Hbody.
  destruct (ServeHTTP_readable writer request sched o Hm Hfree Herr Ho)
    as (e & He & Hwr & _ & Hrd & HI).
  rewrite Hbody in HI. unfold getRequestBodyBuffer in HI. simpl in HI.
  rewrite (Split_Join urls Hne Hclean) in HI.
  destruct (finished_result c l _ e HI Hrd) as (Hcl & _ & Hu & Hrec & Hlog).
  destruct (closed_all_done c l _ e HI Hcl) as (_ & _ & Hd).
  rewrite Hwr. split; [|split].
  - apply write_sizes_status. now left.
  - rewrite write_sizes_body. simpl. now rewrite Hrec.
  - exists e. split; [exact He|]. split; [|exact Hlog].
    rewrite (done_tasks _ Hd). now rewrite Hu.
Qed.

(** X12.  The body can be read back.  For an admitted POST with a readable
    payload on a writer with nothing written yet: the text of the body,
    split at the line feeds, is the decimal form of each received size,
    in the order received, followed by one empty piece; and every size is
    the length of a body, so none is negative. *)
Theorem ServeHTTP_body_reads_back (writer : ResponseWriter) (request : Request)
    (sched : list Action) (o : Outcome) :
  Method request = "POST" ->
  rd_err (req_Body request) = None ->
  in_use (sem h) < capacity (sem h) ->
  w_body writer = [] ->
  ServeHTTP h writer request sched = Some o ->
  exists e, o_engine o = Some e /\
    Split (body_text (o_writer o)) LF = (pretty <$> received e) ++ [EmptyString] /\
    Forall (fun n => 0 <= n) (received e).
Proof.
  intros Hpost Herr Hfree Hfresh Ho.
  assert (Hm : String.eqb (Method request) "POST" = true) by now rewrite Hpost.
  destruct (ServeHTTP_readable writer request sched o Hm Hfree Herr Ho)
    as (e & He & Hwr & _ & Hrd & HI).
  destruct (finished_result c l _ e HI Hrd) as (_ & _ & _ & Hrec & _).
  exists e. split; [exact He|]. split.
  - unfold body_text. rewrite Hwr, write_sizes_body. simpl. rewrite Hfresh. simpl.
    apply Split_lines.
  - rewrite Hrec. apply successes_nonneg.
Qed.

End ServeMore.

End MoreFacts.

(** * The further properties on the sample data *)

Lemma gate_exhaust_release_cycle_witness :
  (2 <= 3)%nat /\ Gate.newSemaphore (Z.of_nat 3) = Returns (sample_gate 3 0) /\
  Gate.calls (replicate 3 Gate.Acquire ++ [Gate.Acquire] ++ replicate 2 Gate.Release
              ++ replicate 2 Gate.Acquire ++ [Gate.Acquire]
              ++ replicate 3 Gate.Release) (sample_gate 3 0)
  = (replicate 3 true ++ [false] ++ replicate 2 true ++ [false],
     Some (sample_gate 3 0)).
Proof.
  assert (HR : (2 <= 3)%nat) by lia.
  split; [exact HR|]. split; [reflexivity|].
  exact (proj1 (gate_exhaust_release_cycle 3 2 (sample_gate 3 0) HR eq_refl)).
Defined.

Lemma gate_slot_accounting_witness :
  Gate.newSemaphore 2 = Returns (sample_gate 2 0) /\
  Gate.calls [Gate.Acquire; Gate.Acquire; Gate.Acquire; Gate.Release] (sample_gate 2 0)
  = ([true; true; false], Some (sample_gate 2 1)) /\
  Gate.in_use (sample_gate 2 1)
  = Z.of_nat (Gate.granted [true; true; false])
    - Z.of_nat (Gate.released [Gate.Acquire; Gate.Acquire; Gate.Acquire; Gate.Release]).
Proof.
  split; [reflexivity|]. split; [reflexivity|].
  exact (proj1 (gate_slot_accounting 2 (sample_gate 2 0) (sample_gate 2 1)
                  [Gate.Acquire; Gate.Acquire; Gate.Acquire; Gate.Release]
                  [true; true; false] eq_refl eq_refl)).
Defined.

Lemma NewHandler_options_reorder_witness :
  field_of (WithClient (Logger := string) (Some offline_client))
  <> field_of (WithLogger (Some "audit")) /\
  NewHandler "std" sample_client
    ([LimitRequests 5] ++ WithClient (Some offline_client)
                          :: WithLogger (Some "audit") :: [])
  = NewHandler "std" sample_client
      ([LimitRequests 5] ++ WithLogger (Some "audit")
                            :: WithClient (Some offline_client) :: []).
Proof.
  assert (Hne : field_of (WithClient (Logger := string) (Some offline_client))
                <> field_of (WithLogger (Some "audit"))) by discriminate.
  split; [exact Hne|].
  exact (proj1 (NewHandler_options_reorder "std" sample_client [LimitRequests 5] []
                  (WithClient (Some offline_client)) (WithLogger (Some "audit")))
               Hne).
Defined.

Lemma payload_round_trip_witness :
  ["http://a"; "http://c"] <> [] /\
  Forall (fun u => Count u LF = 0%nat) ["http://a"; "http://c"] /\
  Split (rd_data (getRequestBodyBuffer ["http://a"; "http://c"])) LF
  = ["http://a"; "http://c"].
Proof.
  assert (Hne : ["http://a"; "http://c"] <> @nil string) by discriminate.
  assert (Hclean : Forall (fun u => Count u LF = 0%nat) ["http://a"; "http://c"])
    by (repeat constructor).
  split; [exact Hne|]. split; [exact Hclean|].
  exact (proj1 (proj2 payload_round_trip) _ Hne Hclean).
Defined.

Lemma ServeHTTP_handler_unchanged_witness :
  exists o, ServeHTTP sample_handler newRecorder sample_post sample_sched = Some o /\
    o_handler o = sample_handler.
Proof.
  eexists. split; [reflexivity|].
  exact (proj1 (ServeHTTP_handler_unchanged sample_handler newRecorder newRecorder
                  sample_post sample_post sample_sched sample_sched _ eq_refl)).
Defined.

Lemma ServeHTTP_method_check_witness :
  w_status newRecorder = None /\ Method sample_get <> "POST" /\
  exists o, ServeHTTP full_handler newRecorder sample_get [] = Some o /\
    status (o_writer o) = StatusMethodNotAllowed /\ o_gate o = [] /\
    o_engine o = None.
Proof.
  assert (Hne : Method sample_get <> "POST") by discriminate.
  split; [reflexivity|]. split; [exact Hne|].
  destruct (proj1 (ServeHTTP_method_check full_handler newRecorder sample_get []
                     eq_refl) Hne) as (o & Ho & Hst & _ & Hg & He & _).
  exists o. repeat split; assumption.
Defined.

Lemma arrive_admits_free_slots_witness :
  Gate.gate_ok 2 (sem sample_handler) /\
  Forall (fun r => Method r = "POST") [sample_post; empty_post; unreadable_post] /\
  fst (arrive sample_handler [sample_post; empty_post; unreadable_post])
  = [Entered; Entered; Unavailable].
Proof.
  assert (Hok : Gate.gate_ok 2 (sem sample_handler)).
  { unfold Gate.gate_ok, Gate.capacity, Gate.in_use. simpl. lia. }
  assert (Hall : Forall (fun r => Method r = "POST")
                   [sample_post; empty_post; unreadable_post])
    by (repeat constructor).
  split; [exact Hok|]. split; [exact Hall|].
  exact (proj1 (arrive_admits_free_slots 2 sample_handler _ Hok Hall)).
Defined.

Lemma fetch_safe_at_every_step_witness :
  exists s, run sample_handler abandon_sched (fetch ["http://a"]) = Some s /\
    wg s = 1 /\ (closed s = true <-> spawner s = SExit) /\
    received s ⊆+ successes sample_client ["http://a"].
Proof.
  eexists. split; [reflexivity|].
  destruct (fetch_safe_at_every_step sample_handler sample_client "audit"
              eq_refl eq_refl ["http://a"] abandon_sched _ eq_refl)
    as (Hwg & _ & _ & Hcl & _ & Hrec & _).
  split; [exact Hwg|]. split; [exact Hcl|exact Hrec].
Defined.

Lemma fetch_any_order_witness :
  [1; 2] ≡ₚ successes echo_client ["ab"; "c"] /\
  exists sched s, drains sched = true /\
    run echo_handler sched (fetch ["ab"; "c"]) = Some s /\
    finished s = true /\ received s = [1; 2].
Proof.
  assert (Hperm : [1; 2] ≡ₚ successes echo_client ["ab"; "c"])
    by apply Permutation_swap.
  split; [exact Hperm|].
  exact (fetch_any_order echo_handler echo_client "audit" eq_refl eq_refl
           ["ab"; "c"] [1; 2] Hperm).
Defined.

Lemma ServeHTTP_schedule_independent_witness :
  exists o1 o2,
    ServeHTTP sample_handler newRecorder sample_post sample_sched = Some o1 /\
    ServeHTTP sample_handler newRecorder sample_post other_sched = Some o2 /\
    w_status (o_writer o1) = w_status (o_writer o2) /\
    w_body (o_writer o1) ≡ₚ w_body (o_writer o2).
Proof.
  eexists. eexists. split; [reflexivity|]. split; [reflexivity|].
  destruct (ServeHTTP_schedule_independent sample_handler sample_client "audit"
              eq_refl eq_refl newRecorder sample_post sample_sched other_sched
              _ _ eq_refl eq_refl) as (_ & _ & Hst & _ & Hbody & _).
  split; [exact Hst|exact Hbody].
Defined.

Lemma ServeHTTP_serves_joined_urls_witness :
  Method sample_post = "POST" /\
  req_Body sample_post = getRequestBodyBuffer ["http://a"; "http://c"] /\
  exists o, ServeHTTP sample_handler newRecorder sample_post sample_sched = Some o /\
    status (o_writer o) = StatusOK /\
    exists e, o_engine o = Some e /\
      tasks e = done_task <$> ["http://a"; "http://c"].
Proof.
  split; [reflexivity|]. split; [reflexivity|].
  assert (Hne : ["http://a"; "http://c"] <> @nil string) by discriminate.
  assert (Hclean : Forall (fun u => Count u LF = 0%nat) ["http://a"; "http://c"])
    by (repeat constructor).
  eexists. split; [reflexivity|].
  destruct (ServeHTTP_serves_joined_urls sample_handler sample_client "audit"
              eq_refl eq_refl newRecorder sample_post ["http://a"; "http://c"]
              sample_sched _ eq_refl eq_refl Hne Hclean sample_gate_free
              eq_refl eq_refl) as (Hst & _ & e & He & Ht & _).
  split; [exact Hst|]. exists e. split; [exact He|exact Ht].
Defined.

Lemma ServeHTTP_body_reads_back_witness :
  Method sample_post = "POST" /\ rd_err (req_Body sample_post) = None /\
  w_body newRecorder = [] /\
  exists o, ServeHTTP sample_handler newRecorder sample_post sample_sched = Some o /\
    exists e, o_engine o = Some e /\
      Split (body_text (o_writer o)) LF = (pretty <$> received e) ++ [EmptyString].
Proof.
  split; [reflexivity|]. split; [reflexivity|]. split; [reflexivity|].
  eexists. split; [reflexivity|].
  destruct (ServeHTTP_body_reads_back sample_handler sample_client "audit"
              eq_refl eq_refl newRecorder sample_post sample_sched _
              eq_refl eq_refl sample_gate_free eq_refl eq_refl)
    as (e & He & Hsplit & _).
  exists e. split; [exact He|exact Hsplit].
Defined.

